(** * zcache: the Redis connection and the multiplexing cache

    A shallow embedding of [lib/RedisConnection.js] and of the
    [MultiplexingCache] that follows it in the same source file.

    Conventions of the embedding.
    - A JavaScript string is a [string]; [String.length] stands for
      [.length].
    - A cache value ([string|undefined|null] in the JSDoc) is a [JsVal].
    - A promise that is only looked at once it has settled is the
      settlement itself, a [Promise A]: [Fulfilled a] or [Rejected e].
      Promises that are shared while they are still in flight (the
      [_pendingGets] of the multiplexing cache) live in an explicit store
      and are referred to by their position in it.
    - A JavaScript object used as a dictionary is a [gmap string _]; the keys
      are assumed to be ordinary cache keys, not names of members of
      [Object.prototype].
    - The libraries [snappy], [Buffer] and the redis client are not part of
      the repository: what they return is a parameter of the functions that
      call them. *)

From Stdlib Require Import ZArith Ascii.
From Stdlib.Strings Require Import Byte.
From stdpp Require Import gmap strings list fin_maps.

Local Open Scope string_scope.

(* ===================================================================== *)
(** * JavaScript values and promises                                      *)
(* ===================================================================== *)

(** A cache value. *)
Inductive JsVal : Type :=
  | JUndefined
  | JNull
  | JStr (s : string).

#[global] Instance JsVal_eq_dec : EqDecision JsVal.
Proof. solve_decision. Defined.

(** [!value]: [undefined], [null] and the empty string are falsy. *)
Definition falsy (v : JsVal) : bool :=
  match v with
  | JUndefined | JNull => true
  | JStr s => match s with EmptyString => true | String _ _ => false end
  end.

(** What a promise is rejected with, or what a node-style callback gets as
    its [err]: an error (any truthy value, identified by its message), or a
    falsy value ([null], [undefined]). *)
Inductive Reason : Type :=
  | Thrown (message : string)
  | FalsyReason.

#[global] Instance Reason_eq_dec : EqDecision Reason.
Proof. solve_decision. Defined.

Definition truthy_reason (e : Reason) : bool :=
  match e with Thrown _ => true | FalsyReason => false end.

(** A settled promise. *)
Inductive Promise (A : Type) : Type :=
  | Fulfilled (a : A)
  | Rejected (e : Reason).
Arguments Fulfilled {A} a.
Arguments Rejected {A} e.

(** [Q.resolve(v)] and [Q.reject(e)]. *)
Definition Q_resolve {A} (a : A) : Promise A := Fulfilled a.
Definition Q_reject {A} (e : Reason) : Promise A := Rejected e.

(** [p.then(f)] for a callback that returns a promise: a rejection skips the
    callback and is handed on. *)
Definition then_ {A B} (p : Promise A) (f : A -> Promise B) : Promise B :=
  match p with
  | Fulfilled a => f a
  | Rejected e => Rejected e
  end.

(** [p.then(f)] for a callback that returns a plain value. *)
Definition then_value {A B} (p : Promise A) (f : A -> B) : Promise B :=
  then_ p (fun a => Fulfilled (f a)).

(** The two ways the expression [Q.nfcall(fn, args...)] can end: it throws
    while it is being evaluated, which is the only thing an enclosing
    [try ... catch] sees, or it returns a promise, which settles later.  A
    failure that [fn] reports through its node-style callback is a rejection
    of the returned promise. *)
Inductive Attempt (A : Type) : Type :=
  | Throws (message : string)
  | Returns (p : Promise A).
Arguments Throws {A} message.
Arguments Returns {A} p.

(** A [Buffer]. *)
Definition Buffer : Type := list byte.

(** [s.substring(n)]: the string without its first [n] characters. *)
Fixpoint substring_from (n : nat) (s : string) : string :=
  match n, s with
  | O, _ => s
  | S _, EmptyString => EmptyString
  | S n', String _ s' => substring_from n' s'
  end.

(** [s.indexOf(p) === 0]. *)
Definition starts_with (p s : string) : bool := String.prefix p s.

(* ===================================================================== *)
(** * RedisConnection: the value codec                                    *)
(* ===================================================================== *)

(** The fields of a [RedisConnection] that the codec reads. *)
Record RedisConnection : Type := {
  _snappyPivot : nat;
  _compressedPrefix : string;
  _uncompressedPrefix : string;
  _compressionEnabled : bool
}.

(** The constructor; [compressionEnabled] is
    [(options && options.compressionEnabled) || false]. *)
Definition new_RedisConnection (compressionEnabled : bool) : RedisConnection :=
  {| _snappyPivot := 750;
     _compressedPrefix := "@snappy@";
     _uncompressedPrefix := "@orig@";
     _compressionEnabled := compressionEnabled |}.

Section Codec.

(** [Q.nfcall(snappy.compress, value)]. *)
Variable nfcall_snappy_compress : string -> Attempt Buffer.
(** [Q.nfcall(snappy.uncompress, buf, {asBuffer: false})]. *)
Variable nfcall_snappy_uncompress : Buffer -> Attempt string.
(** [buf.toString('base64')] and [new Buffer(str, 'base64')]. *)
Variable toString_base64 : Buffer -> string.
Variable Buffer_from_base64 : string -> Buffer.

Definition _compress (this : RedisConnection) (value : JsVal) : Promise JsVal :=
  if falsy value || negb (_compressionEnabled this) then Q_resolve value
  else
    match value with
    | JStr s =>
        if (_snappyPivot this <? String.length s)%nat then
          match nfcall_snappy_compress s with
          | Returns p =>
              then_value p (fun compressed =>
                JStr (_compressedPrefix this +:+ toString_base64 compressed))
          | Throws _ =>
              Q_resolve (JStr (_uncompressedPrefix this +:+ s))
          end
        else Q_resolve (JStr (_uncompressedPrefix this +:+ s))
    | _ => Q_resolve value
    end.

Definition _uncompress (this : RedisConnection) (value : JsVal) : Promise JsVal :=
  if falsy value then Q_resolve value
  else
    match value with
    | JStr s =>
        if starts_with (_compressedPrefix this) s then
          let compressedBuf :=
            Buffer_from_base64
              (substring_from (String.length (_compressedPrefix this)) s) in
          match nfcall_snappy_uncompress compressedBuf with
          | Returns p => then_value p JStr
          | Throws _ => Q_resolve JUndefined
          end
        else if starts_with (_uncompressedPrefix this) s then
          Q_resolve
            (JStr (substring_from (String.length (_uncompressedPrefix this)) s))
        else Q_resolve value
    | _ => Q_resolve value
    end.

(** Write a value with one connection, read it back with another. *)
Definition roundtrip (writer reader : RedisConnection) (value : JsVal)
  : Promise JsVal :=
  then_ (_compress writer value) (_uncompress reader).

End Codec.

(* ===================================================================== *)
(** * RedisConnection: getServerInfo                                      *)
(* ===================================================================== *)

(** A JavaScript number as [parseInt] returns it: [NaN] or an integer.  The
    integers are exact (the counters of a Redis server stay far below
    2^53). *)
Inductive JsNum : Type :=
  | NaN
  | Int (z : Z).

#[global] Instance JsNum_eq_dec : EqDecision JsNum.
Proof. solve_decision. Defined.

(** White space for [trim] and [parseInt], among the code units below 256:
    TAB, LF, VT, FF, CR, SP and NBSP. *)
Definition is_white_space (c : ascii) : bool :=
  let n := nat_of_ascii c in
  ((9 <=? n) && (n <=? 13))%nat || (n =? 32)%nat || (n =? 160)%nat.

Fixpoint trim_left (s : string) : string :=
  match s with
  | EmptyString => EmptyString
  | String c s' => if is_white_space c then trim_left s' else s
  end.

Fixpoint trim_right (s : string) : string :=
  match s with
  | EmptyString => EmptyString
  | String c s' =>
      match trim_right s' with
      | EmptyString => if is_white_space c then EmptyString else String c EmptyString
      | r => String c r
      end
  end.

(** [s.trim()]. *)
Definition trim (s : string) : string := trim_right (trim_left s).

(** [s.split(sep)] for a separator of one character: never empty. *)
Fixpoint split (sep : ascii) (s : string) : list string :=
  match s with
  | EmptyString => [EmptyString]
  | String c s' =>
      if Ascii.eqb c sep then EmptyString :: split sep s'
      else
        match split sep s' with
        | [] => [String c EmptyString]
        | w :: ws => String c w :: ws
        end
  end.

(** [s.indexOf(c)]: the position of the first [c], or -1. *)
Fixpoint indexOf (c : ascii) (s : string) : Z :=
  match s with
  | EmptyString => (-1)%Z
  | String d s' =>
      if Ascii.eqb d c then 0%Z
      else let i := indexOf c s' in if (i <? 0)%Z then (-1)%Z else (i + 1)%Z
  end.

(** [a[i]]: [undefined] out of range. *)
Definition array_get (a : list string) (i : nat) : JsVal :=
  match a !! i with
  | Some s => JStr s
  | None => JUndefined
  end.

(** [obj[k]] for an object of strings: [undefined] when the property is
    missing. *)
Definition property (items : gmap string JsVal) (k : string) : JsVal :=
  match items !! k with
  | Some v => v
  | None => JUndefined
  end.

(** [ToString] of a cache value. *)
Definition ToString (v : JsVal) : string :=
  match v with
  | JUndefined => "undefined"
  | JNull => "null"
  | JStr s => s
  end.

Definition digit_value (c : ascii) : option Z :=
  let n := nat_of_ascii c in
  if ((48 <=? n) && (n <=? 57))%nat then Some (Z.of_nat (n - 48)) else None.

(** The value of the longest prefix of decimal digits, read from the left
    with [acc] the value so far; [None] when the prefix is empty. *)
Fixpoint parse_digits (acc : option Z) (s : string) : option Z :=
  match s with
  | EmptyString => acc
  | String c s' =>
      match digit_value c with
      | Some d =>
          parse_digits (Some (10 * (match acc with Some a => a | None => 0 end) + d)%Z) s'
      | None => acc
      end
  end.

(** [parseInt(v, 10)]: skip white space, read a sign, read digits. *)
Definition parseInt (v : JsVal) : JsNum :=
  let s := trim_left (ToString v) in
  let '(sign, digits) :=
    match s with
    | String "-" r => ((-1)%Z, r)
    | String "+" r => (1%Z, r)
    | _ => (1%Z, s)
    end in
  match parse_digits None digits with
  | Some n => Int (sign * n)
  | None => NaN
  end.

(** [ServerInfo]; its constructor is not in this file, so a new record is a
    parameter of [getServerInfo]. *)
Record ServerInfo : Type := {
  memoryBytes : JsNum;
  memoryRssBytes : JsNum;
  evictedKeys : JsNum;
  numOfConnections : JsNum;
  numOfKeys : JsNum
}.

#[global] Instance ServerInfo_eq_dec : EqDecision ServerInfo.
Proof. solve_decision. Defined.

(** The [items] object that the first half of the callback fills: one
    property per line with a colon past its first character, later lines
    overwriting earlier ones. *)
Definition parse_items (infoCmdOutput : string) : gmap string JsVal :=
  let lines := filter (fun str => (0 <? indexOf ":" str)%Z = true)
                      (split "010" infoCmdOutput) in
  let pairs := map (fun str => split ":" (trim str)) lines in
  fold_left (fun items item =>
               <[ToString (array_get item 0) := array_get item 1]> items)
            pairs ∅.

(** [deferred.makeNodeResolver()] called back with [(err, data)]. *)
Definition makeNodeResolver {A} (err : Reason) (data : A) : Promise A :=
  if truthy_reason err then Q_reject err else Q_resolve data.

Definition malformatted : Reason :=
  Thrown ("Malformatted output from the " +:+ String "034" "INFO"
          +:+ String "034" " command of Redis").

(** The callback of [getServerInfo].  The assignments of the [try] block run
    in order; only [items['db0'].split] can throw (when [db0] is missing),
    and the [catch] block builds a rejected promise that nothing returns. *)
Definition getServerInfo_then (new_ServerInfo : ServerInfo)
    (infoCmdOutput : string) : Promise ServerInfo :=
  let items := parse_items infoCmdOutput in
  let serverInfo := new_ServerInfo in
  let serverInfo :=
    {| memoryBytes := parseInt (property items "used_memory");
       memoryRssBytes := parseInt (property items "used_memory_rss");
       evictedKeys := parseInt (property items "evicted_keys");
       numOfConnections := parseInt (property items "connected_clients");
       numOfKeys := numOfKeys serverInfo |} in
  let serverInfo :=
    match property items "db0" with
    | JStr db0 =>
        let first := ToString (array_get (split "," db0) 0) in
        {| memoryBytes := memoryBytes serverInfo;
           memoryRssBytes := memoryRssBytes serverInfo;
           evictedKeys := evictedKeys serverInfo;
           numOfConnections := numOfConnections serverInfo;
           numOfKeys := parseInt (array_get (split "=" first) 1) |}
    | _ =>
        let _ : Promise ServerInfo := Q_reject malformatted in
        serverInfo
    end in
  Q_resolve serverInfo.

(** [getServerInfo], given what [client.info] calls back with. *)
Definition getServerInfo (new_ServerInfo : ServerInfo)
    (err : Reason) (infoCmdOutput : string) : Promise ServerInfo :=
  then_ (makeNodeResolver err infoCmdOutput) (getServerInfo_then new_ServerInfo).

(* ===================================================================== *)
(** * RedisConnection: the node resolver with a timeout                   *)
(* ===================================================================== *)

(** The instruments of [CacheInstance] that the resolver updates:
    [getStats(opName)] collects the samples given to [update], and
    [_getTimeoutCounter(opName)] counts the calls of [inc]. *)
Record Instruments : Type := {
  stats : gmap string (list Z);
  timeoutCounters : gmap string nat
}.

Definition getStats (m : Instruments) (opName : string) : list Z :=
  default [] (stats m !! opName).

Definition getTimeoutCount (m : Instruments) (opName : string) : nat :=
  default 0%nat (timeoutCounters m !! opName).

Definition stats_update (opName : string) (sample : Z) (m : Instruments)
  : Instruments :=
  {| stats := <[opName := (getStats m opName ++ [sample])%list]> (stats m);
     timeoutCounters := timeoutCounters m |}.

Definition timeoutCounter_inc (opName : string) (m : Instruments) : Instruments :=
  {| stats := stats m;
     timeoutCounters := <[opName := S (getTimeoutCount m opName)]> (timeoutCounters m) |}.

(** A rejection reason of the adapter: the [TimeoutError] the timer builds,
    or whatever the redis client reported. *)
Inductive Failure : Type :=
  | TimeoutError (message : string)
  | ClientError (err : Reason).

(** The closure that [_makeNodeResolverWithTimeout] returns, with the
    variables it captures: [deferred] is [None] while the promise is
    pending, [timeout] is [true] while the timer is scheduled. *)
Record Resolver (A : Type) : Type := {
  opName : string;
  opDesc : string;
  startTime : Z;
  isTimeout : bool;
  timeout : bool;
  deferred : option (A + Failure)
}.
Arguments opName {A} r.
Arguments opDesc {A} r.
Arguments startTime {A} r.
Arguments isTimeout {A} r.
Arguments timeout {A} r.
Arguments deferred {A} r.

(** [deferred.resolve] and [deferred.reject]: a promise settles once. *)
Definition settle {A} (d : option (A + Failure)) (outcome : A + Failure)
  : option (A + Failure) :=
  match d with
  | None => Some outcome
  | Some _ => d
  end.

(** [_makeNodeResolverWithTimeout(deferred, opName, opDesc)] at time [now]. *)
Definition _makeNodeResolverWithTimeout {A} (now : Z) (opName opDesc : string)
  : Resolver A :=
  {| opName := opName; opDesc := opDesc; startTime := now;
     isTimeout := false; timeout := true; deferred := None |}.

(** The function given to [setTimeout]; it runs only while the timer is
    scheduled. *)
Definition on_timeout {A} (r : Resolver A) (m : Instruments)
  : Resolver A * Instruments :=
  if timeout r then
    ({| opName := opName r; opDesc := opDesc r; startTime := startTime r;
        isTimeout := true;
        timeout := false;
        deferred := settle (deferred r)
                      (inr (TimeoutError ("Cache request timeout. " +:+ opDesc r))) |},
     timeoutCounter_inc (opName r) m)
  else (r, m).

(** The node-style callback [function (err, data)], called at time [now]. *)
Definition on_callback {A} (now : Z) (err : Reason) (data : A)
    (r : Resolver A) (m : Instruments) : Resolver A * Instruments :=
  let m := stats_update (opName r) (now - startTime r)%Z m in
  if negb (isTimeout r) then
    ({| opName := opName r; opDesc := opDesc r; startTime := startTime r;
        isTimeout := isTimeout r;
        timeout := false;
        deferred := if truthy_reason err
                    then settle (deferred r) (inr (ClientError err))
                    else settle (deferred r) (inl data) |},
     m)
  else (r, m).

(** What happens to one dispatched operation. *)
Inductive Signal (A : Type) : Type :=
  | TimerFires
  | Completion (now : Z) (err : Reason) (data : A).
Arguments TimerFires {A}.
Arguments Completion {A} now err data.

Definition signal {A} (s : Signal A) (st : Resolver A * Instruments)
  : Resolver A * Instruments :=
  match s with
  | TimerFires => on_timeout st.1 st.2
  | Completion now err data => on_callback now err data st.1 st.2
  end.

Definition signals {A} (l : list (Signal A)) (st : Resolver A * Instruments)
  : Resolver A * Instruments :=
  fold_left (fun st s => signal s st) l st.

(** The samples that the completions among some signals give to [update],
    for an operation dispatched at [start]. *)
Definition elapsed {A} (start : Z) (l : list (Signal A)) : list Z :=
  omap (fun s => match s with
                 | Completion now _ _ => Some (now - start)%Z
                 | TimerFires => None
                 end) l.

(* ===================================================================== *)
(** * MultiplexingCache                                                   *)
(* ===================================================================== *)

(** An item of [mset]. *)
Record Item : Type := { item_key : string; item_value : JsVal }.

(** A call that reaches [this._delegate]. *)
Inductive DelegateCall : Type :=
  | Delegate_mget (keys : list string)
  | Delegate_mset (items : list Item) (maxAgeMs : Z) (setWhenNotExist : bool)
  | Delegate_incr (key : string) (increment : option Z)
  | Delegate_set (key : string) (val : JsVal) (maxAgeMs : Z) (setWhenNotExist : bool)
  | Delegate_del (key : string).

(** What a method does to the outside of its own frame, in the order it does
    it: [delete this._pendingGets[key]], [this._pendingGets[key] = promise]
    and a call of a method of the delegate. *)
Inductive Effect : Type :=
  | Deleted (key : string)
  | Registered (key : string) (promise : nat)
  | Called (call : DelegateCall).

#[global] Instance Item_eq_dec : EqDecision Item.
Proof. solve_decision. Defined.
#[global] Instance DelegateCall_eq_dec : EqDecision DelegateCall.
Proof. solve_decision. Defined.
#[global] Instance Effect_eq_dec : EqDecision Effect.
Proof. solve_decision. Defined.

(** A promise that is shared while in flight. *)
Inductive PromiseState (A : Type) : Type :=
  | Pending
  | Settled (p : Promise A).
Arguments Pending {A}.
Arguments Settled {A} p.

(** The promise that one call of [_mget(keys)] returns. *)
Record Fetch : Type := {
  fetch_keys : list string;
  fetch_state : PromiseState (gmap string JsVal)
}.

(** A [MultiplexingCache]: [_pendingGets] maps a key to a promise, which is
    its position in [promises], the promises that [_mget] has returned so
    far (several keys may hold the same one); [journal] lists the effects so
    far, oldest first. *)
Record MultiplexingCache : Type := {
  _pendingGets : gmap string nat;
  promises : list Fetch;
  journal : list Effect
}.

(** The constructor. *)
Definition new_MultiplexingCache : MultiplexingCache :=
  {| _pendingGets := ∅; promises := []; journal := [] |}.

(** Methods thread the object through. *)
Definition M (A : Type) : Type := MultiplexingCache -> A * MultiplexingCache.

Definition ret {A} (a : A) : M A := fun this => (a, this).

Definition bind {A B} (m : M A) (f : A -> M B) : M B :=
  fun this => let '(a, this') := m this in f a this'.

Notation "'let*' x ':=' m 'in' k" := (bind m (fun x => k))
  (at level 10, x name, m at level 100, k at level 200, only parsing).
Notation "m >> k" := (bind m (fun _ => k))
  (at level 100, k at level 200, right associativity, only parsing).

Definition this_pendingGets : M (gmap string nat) :=
  fun this => (_pendingGets this, this).

(** [delete this._pendingGets[key]]. *)
Definition delete_pendingGet (key : string) : M unit :=
  fun this =>
    (tt, {| _pendingGets := delete key (_pendingGets this);
            promises := promises this;
            journal := (journal this ++ [Deleted key])%list |}).

(** [this._pendingGets[key] = promise]. *)
Definition set_pendingGet (key : string) (promise : nat) : M unit :=
  fun this =>
    (tt, {| _pendingGets := <[key := promise]> (_pendingGets this);
            promises := promises this;
            journal := (journal this ++ [Registered key promise])%list |}).

(** A call of a write method of the delegate; the promise it returns is
    handed to the caller as it is. *)
Definition delegate (call : DelegateCall) : M unit :=
  fun this =>
    (tt, {| _pendingGets := _pendingGets this;
            promises := promises this;
            journal := (journal this ++ [Called call])%list |}).

(** [for (var i = 0; i < l.length; i++) body(l[i])]. *)
Fixpoint for_each {A} (l : list A) (body : A -> M unit) : M unit :=
  match l with
  | [] => ret tt
  | a :: l' => body a >> for_each l' body
  end.

(** [typeof k == 'string' ? k : k.key]. *)
Definition key_of (k : string + Item) : string :=
  match k with
  | inl s => s
  | inr item => item_key item
  end.

(** [_invalidateKeys(keys)]: an element is a key or an object with a [key]. *)
Definition _invalidateKeys (keys : list (string + Item)) : M unit :=
  for_each keys (fun k => let key := key_of k in delete_pendingGet key).

(** [results[i]] for an array of cache values. *)
Definition element (results : list JsVal) (i : nat) : JsVal :=
  default JUndefined (results !! i).

(** The loop of [_convertToMap], from index [i] on. *)
Fixpoint _convertToMap_loop (keys : list string) (i : nat) (results : list JsVal)
    (resultMap : gmap string JsVal) : gmap string JsVal :=
  match keys with
  | [] => resultMap
  | k :: keys' =>
      _convertToMap_loop keys' (S i) results (<[k := element results i]> resultMap)
  end.

(** [_convertToMap(keys)(results)]; [None] is a falsy [results]. *)
Definition _convertToMap (keys : list string) (results : option (list JsVal))
  : gmap string JsVal :=
  match results with
  | None => ∅
  | Some rs => _convertToMap_loop keys 0 rs ∅
  end.

(** [_mget(keys)]: the call [this._delegate.mget(keys)] and the promise that
    [.then(...).fail(...)] makes of it.  The delegate answers in a later
    turn of the event loop, so the promise starts out pending; its callbacks
    are [_mget_settled]. *)
Definition _mget (keys : list string) : M nat :=
  fun this =>
    (length (promises this),
     {| _pendingGets := _pendingGets this;
        promises := (promises this ++ [{| fetch_keys := keys; fetch_state := Pending |}])%list;
        journal := (journal this ++ [Called (Delegate_mget keys)])%list |}).

Definition settle_promise (p : nat) (outcome : Promise (gmap string JsVal))
  : M unit :=
  fun this =>
    (tt, {| _pendingGets := _pendingGets this;
            promises := alter (fun f => {| fetch_keys := fetch_keys f;
                                           fetch_state := Settled outcome |})
                              p (promises this);
            journal := journal this |}).

(** The callbacks that [_mget] attached, run when the delegate's promise for
    the call behind promise [p] settles: on success [invalidateFn(results)]
    and then [convertToMap(results)], on failure [invalidateFn(null)] and
    then [Q.reject(e)].  A promise that has settled does not settle again. *)
Definition _mget_settled (p : nat) (outcome : Promise (option (list JsVal)))
  : M unit :=
  fun this =>
    match promises this !! p with
    | Some {| fetch_keys := keys; fetch_state := Pending |} =>
        match outcome with
        | Fulfilled results =>
            (_invalidateKeys (inl <$> keys) >>
             settle_promise p (Fulfilled (_convertToMap keys results))) this
        | Rejected e =>
            (_invalidateKeys (inl <$> keys) >>
             settle_promise p (Rejected e)) this
        end
    | _ => (tt, this)
    end.

(** [mset], [incr], [set] and [del]. *)
Definition mset (items : list Item) (maxAgeMs : Z) (setWhenNotExist : bool)
  : M unit :=
  _invalidateKeys (inr <$> items) >>
  delegate (Delegate_mset items maxAgeMs setWhenNotExist).

Definition incr (key : string) (increment : option Z) : M unit :=
  _invalidateKeys [inl key] >>
  delegate (Delegate_incr key increment).

Definition set (key : string) (val : JsVal) (maxAgeMs : Z) (setWhenNotExist : bool)
  : M unit :=
  _invalidateKeys [inl key] >>
  delegate (Delegate_set key val maxAgeMs setWhenNotExist).

Definition del (key : string) : M unit :=
  _invalidateKeys [inl key] >>
  delegate (Delegate_del key).

(** [_extractValue(key)]. *)
Definition _extractValue (key : string) (map : gmap string JsVal) : JsVal :=
  property map key.

(** [get(key)]: the promise whose map the caller's value is taken from. *)
Definition get (key : string) : M nat :=
  let* pendingGets := this_pendingGets in
  match pendingGets !! key with
  | Some promise => ret promise
  | None =>
      let* promise := _mget [key] in
      set_pendingGet key promise >>
      ret promise
  end.

(** What the caller of [get(key)] has in hand in the state [this]. *)
Definition get_result (this : MultiplexingCache) (promise : nat) (key : string)
  : PromiseState JsVal :=
  match promises this !! promise with
  | Some {| fetch_state := Settled p |} => Settled (then_value p (_extractValue key))
  | _ => Pending
  end.

(** The first loop of [mget]: [keysToFetch] and [promisesToWaitFor]. *)
Fixpoint mget_loop (pendingGets : gmap string nat) (keys : list string)
    (keysToFetch : list string) (promisesToWaitFor : list nat)
  : list string * list nat :=
  match keys with
  | [] => (keysToFetch, promisesToWaitFor)
  | key :: keys' =>
      match pendingGets !! key with
      | Some promise =>
          mget_loop pendingGets keys' keysToFetch (promisesToWaitFor ++ [promise])%list
      | None =>
          mget_loop pendingGets keys' (keysToFetch ++ [key])%list promisesToWaitFor
      end
  end.

(** What the callback of [mget] closes over: [keys], the function-scoped
    [var key] as the first loop left it ([None] is [undefined]), and
    [promisesToWaitFor]. *)
Record MgetCall : Type := {
  mget_keys : list string;
  mget_key : option string;
  promisesToWaitFor : list nat
}.

Definition mget (keys : list string) : M MgetCall :=
  let* pendingGets := this_pendingGets in
  let '(keysToFetch, promisesToWaitFor) := mget_loop pendingGets keys [] [] in
  let* promisesToWaitFor :=
    (if (0 <? length keysToFetch)%nat then
       let* mgetPromise := _mget keysToFetch in
       for_each keysToFetch (fun k => set_pendingGet k mgetPromise) >>
       ret (promisesToWaitFor ++ [mgetPromise])%list
     else ret promisesToWaitFor) in
  ret {| mget_keys := keys; mget_key := last keys;
         promisesToWaitFor := promisesToWaitFor |}.

(** How the promise of [mget] settles. *)
Inductive MgetOutcome : Type :=
  | Result (result : list JsVal)
  | PartialResultError (data : gmap string JsVal) (errors : gmap string Reason).

(** A property name made of [key]. *)
Definition property_name (key : option string) : string :=
  match key with
  | Some k => k
  | None => "undefined"
  end.

(** The loop over [maps] in the callback of [mget].  Copying every property
    of [value] into [aggregatedData] is the union in which [value] wins. *)
Fixpoint mget_aggregate (key : option string)
    (maps : list (Promise (gmap string JsVal)))
    (aggregatedData : gmap string JsVal) (aggregatedErrors : gmap string Reason)
  : gmap string JsVal * gmap string Reason :=
  match maps with
  | [] => (aggregatedData, aggregatedErrors)
  | Fulfilled value :: maps' =>
      mget_aggregate key maps' (value ∪ aggregatedData) aggregatedErrors
  | Rejected reason :: maps' =>
      if truthy_reason reason then
        mget_aggregate key maps' aggregatedData
          (<[property_name key := reason]> aggregatedErrors)
      else mget_aggregate key maps' aggregatedData aggregatedErrors
  end.

(** The callback of [mget], given what [Q.allSettled] resolved to. *)
Definition mget_then (keys : list string) (key : option string)
    (maps : list (Promise (gmap string JsVal))) : MgetOutcome :=
  let '(aggregatedData, aggregatedErrors) := mget_aggregate key maps ∅ ∅ in
  if (size aggregatedErrors =? 0)%nat then
    Result (map (fun k => property aggregatedData k) keys)
  else PartialResultError aggregatedData aggregatedErrors.

(** [Q.allSettled(promises)]: pending until every promise has settled. *)
Fixpoint Q_allSettled {A} (l : list (PromiseState A)) : PromiseState (list (Promise A)) :=
  match l with
  | [] => Settled (Fulfilled [])
  | Pending :: _ => Pending
  | Settled p :: l' =>
      match Q_allSettled l' with
      | Settled (Fulfilled ps) => Settled (Fulfilled (p :: ps))
      | other => other
      end
  end.

Definition promise_state (this : MultiplexingCache) (p : nat)
  : PromiseState (gmap string JsVal) :=
  match promises this !! p with
  | Some f => fetch_state f
  | None => Pending
  end.

(** What the caller of [mget] has in hand in the state [this]: [None] while
    the promise is pending. *)
Definition mget_result (this : MultiplexingCache) (call : MgetCall)
  : option MgetOutcome :=
  match Q_allSettled (promise_state this <$> promisesToWaitFor call) with
  | Settled (Fulfilled maps) => Some (mget_then (mget_keys call) (mget_key call) maps)
  | _ => None
  end.

(** What can happen to a cache: a caller calls a method, or the delegate
    settles the call behind a promise. *)
Inductive Op : Type :=
  | Op_get (key : string)
  | Op_mget (keys : list string)
  | Op_mset (items : list Item) (maxAgeMs : Z) (setWhenNotExist : bool)
  | Op_incr (key : string) (increment : option Z)
  | Op_set (key : string) (val : JsVal) (maxAgeMs : Z) (setWhenNotExist : bool)
  | Op_del (key : string)
  | Op_settled (p : nat) (outcome : Promise (option (list JsVal))).

Definition exec (this : MultiplexingCache) (op : Op) : MultiplexingCache :=
  match op with
  | Op_get key => (get key this).2
  | Op_mget keys => (mget keys this).2
  | Op_mset items maxAgeMs nx => (mset items maxAgeMs nx this).2
  | Op_incr key increment => (incr key increment this).2
  | Op_set key val maxAgeMs nx => (set key val maxAgeMs nx this).2
  | Op_del key => (del key this).2
  | Op_settled p outcome => (_mget_settled p outcome this).2
  end.

Definition run (ops : list Op) (this : MultiplexingCache) : MultiplexingCache :=
  fold_left exec ops this.

(** The calls of [mget] on the delegate among some effects. *)
Definition mget_calls (effects : list Effect) : list (list string) :=
  omap (fun e => match e with Called (Delegate_mget keys) => Some keys | _ => None end)
       effects.

(** Every call on the delegate among some effects. *)
Definition delegate_calls (effects : list Effect) : list DelegateCall :=
  omap (fun e => match e with Called call => Some call | _ => None end) effects.




(** [after] is [before] once the entries of [keys] have been removed and
    then [call] has been made on the delegate, with nothing else done. *)
Definition invalidated_then_forwarded (before : MultiplexingCache)
    (keys : list string) (call : DelegateCall) (after : MultiplexingCache) : Prop :=
  journal after = (journal before ++ (Deleted <$> keys) ++ [Called call])%list
  /\ (forall k, _pendingGets after !! k
                = if decide (k ∈ keys) then None else _pendingGets before !! k)
  /\ promises after = promises before.

(** Every entry of [_pendingGets] holds a promise that is still pending and
    that was made for a batch with the entry's key. *)
Definition index_in_flight (this : MultiplexingCache) : Prop :=
  forall k p, _pendingGets this !! k = Some p ->
    exists keys, promises this !! p
                 = Some {| fetch_keys := keys; fetch_state := Pending |}
                 /\ k ∈ keys.

(** The promise that [k] has an entry for, if any, is one of those made
    from the [n]-th on. *)
Definition made_since (n : nat) (k : string) (this : MultiplexingCache) : Prop :=
  n <= length (promises this)
  /\ forall q, _pendingGets this !! k = Some q -> n <= q.

(* ===================================================================== *)
(** * Stand-ins for the libraries and sample runs                         *)
(* ===================================================================== *)

(** A codec that stores the bytes of the string as they are: it satisfies
    what the round trip needs of [snappy] and of base64. *)
Module Loopback.
Definition compress (s : string) : Attempt Buffer :=
  Returns (Fulfilled (String.list_byte_of_string s)).
Definition uncompress (b : Buffer) : Attempt string :=
  Returns (Fulfilled (String.string_of_list_byte b)).
Definition toString_base64 (b : Buffer) : string := String.string_of_list_byte b.
Definition Buffer_from_base64 (s : string) : Buffer := String.list_byte_of_string s.
End Loopback.

(** A [snappy] that reports a failure through its node-style callback, as
    it does for input that it cannot handle. *)
Module Failing.
Definition compress (_ : string) : Attempt Buffer :=
  Returns (Rejected (Thrown "snappy: compression failed")).
Definition uncompress (_ : Buffer) : Attempt string :=
  Returns (Rejected (Thrown "Invalid input")).
End Failing.

(** A value of 751 characters, one past the pivot. *)
Definition long_value : string := String.string_of_list_ascii (repeat "x"%char 751).

(** A run in which one of two batches fails: [get("a")] is in flight when
    [mget(["a", "b"])] is called, which reuses the promise for ["a"] and
    fetches ["b"]; then the first batch fails and the second succeeds. *)
Definition partial_failure_run : MgetCall * MultiplexingCache :=
  let '(_, this) := get "a" new_MultiplexingCache in
  let '(call, this) := mget ["a"; "b"] this in
  (call, run [Op_settled 0 (Rejected (Thrown "boom"));
              Op_settled 1 (Fulfilled (Some [JStr "vb"]))] this).

(** The statement that decoding undoes encoding for every non-empty value
    and either setting of [compressionEnabled], whenever compression
    succeeds or is not attempted. *)
Definition roundtrip_for_every_value : Prop :=
  forall (compress : string -> Attempt Buffer) (uncompress : Buffer -> Attempt string)
         (toString_base64 : Buffer -> string) (Buffer_from_base64 : string -> Buffer),
    (forall b, Buffer_from_base64 (toString_base64 b) = b) ->
    (forall s b, compress s = Returns (Fulfilled b) ->
                 uncompress b = Returns (Fulfilled s)) ->
    forall (enabled : bool) (v : string),
      v <> EmptyString ->
      (String.length v <= 750 \/ exists b, compress v = Returns (Fulfilled b)) ->
      roundtrip compress uncompress toString_base64 Buffer_from_base64
        (new_RedisConnection enabled) (new_RedisConnection enabled) (JStr v)
      = Fulfilled (JStr v).

(** A value carries no tag. *)
Definition untagged (v : string) : Prop :=
  starts_with "@snappy@" v = false /\ starts_with "@orig@" v = false.

(* ===================================================================== *)
(** * RedisConnection: the data operations                                *)
(* ===================================================================== *)

From stdpp Require pretty.

(** An element of the parameter array of a command: a string, a cache value
    or a number. *)
Inductive RedisArg : Type :=
  | Arg_str (s : string)
  | Arg_val (v : JsVal)
  | Arg_num (n : Z).

#[global] Instance RedisArg_eq_dec : EqDecision RedisArg.
Proof. solve_decision. Defined.

(** A call of a method of [this._client]. *)
Inductive ClientCall : Type :=
  | client_incrby (params : list RedisArg)
  | client_set (params : list RedisArg)
  | client_multi_exec (commands : list (list RedisArg))
  | client_del (key : string)
  | client_mget (keys : list string).

#[global] Instance ClientCall_eq_dec : EqDecision ClientCall.
Proof. solve_decision. Defined.

(** What a data operation does: it returns a promise that has settled
    without the client being called, or it makes one call on the client with
    [_makeNodeResolverWithTimeout(deferred, opName, opDesc)] as the callback
    and returns [deferred.promise]. *)
Inductive Dispatch (A : Type) : Type :=
  | Without_client (p : Promise A)
  | With_client (call : ClientCall) (name desc : string).
Arguments Without_client {A} p.
Arguments With_client {A} call name desc.

(** The calls on the client that an operation made. *)
Definition client_calls {A} (d : Dispatch A) : list ClientCall :=
  match d with
  | Without_client _ => []
  | With_client call _ _ => [call]
  end.

(** [p.thenBound(f)] for a callback that dispatches: a rejection skips the
    callback. *)
Definition then_dispatch {A B} (p : Promise A) (f : A -> Dispatch B) : Dispatch B :=
  match p with
  | Fulfilled a => f a
  | Rejected e => Without_client (Rejected e)
  end.

(** [Q.all(promises)]: the list of the values when every promise is
    fulfilled, a rejection otherwise (here the first one in the order of the
    list). *)
Fixpoint Q_all {A} (l : list (Promise A)) : Promise (list A) :=
  match l with
  | [] => Fulfilled []
  | Fulfilled a :: l' =>
      match Q_all l' with
      | Fulfilled values => Fulfilled (a :: values)
      | Rejected e => Rejected e
      end
  | Rejected e :: _ => Rejected e
  end.

(** The loops of [mset] that build the commands of the transaction, from
    index [i] on.  With [setWhenNotExist] each item adds a [set] command to
    [commands]; without, each item adds its key and value to [msetCommand]
    and an [EXPIRE] command to the commands that follow it. *)
Fixpoint mset_set_loop (items : list Item) (i : nat) (compressedValues : list JsVal)
    (maxAgeMs : Z) (commands : list (list RedisArg)) : list (list RedisArg) :=
  match items with
  | [] => commands
  | item :: items' =>
      mset_set_loop items' (S i) compressedValues maxAgeMs
        (commands ++ [[Arg_str "set"; Arg_str (item_key item);
                       Arg_val (element compressedValues i);
                       Arg_str "PX"; Arg_num maxAgeMs; Arg_str "NX"]])%list
  end.

Fixpoint mset_mset_loop (items : list Item) (i : nat) (compressedValues : list JsVal)
    (maxAgeMs : Z) (msetCommand : list RedisArg) (expires : list (list RedisArg))
  : list RedisArg * list (list RedisArg) :=
  match items with
  | [] => (msetCommand, expires)
  | item :: items' =>
      let key := item_key item in
      mset_mset_loop items' (S i) compressedValues maxAgeMs
        (msetCommand ++ [Arg_str key; Arg_val (element compressedValues i)])%list
        (expires ++ [[Arg_str "EXPIRE"; Arg_str key; Arg_num (maxAgeMs / 1000)%Z]])%list
  end.

(** The [commands] that [mset] gives to [multi]; [msetCommand] is the first
    of them, as it is when the loop is over.  [maxAgeMs] is a whole number
    of milliseconds, for which [Math.floor(maxAgeMs / 1000)] is the
    quotient rounded down. *)
Definition mset_commands (items : list Item) (compressedValues : list JsVal)
    (maxAgeMs : Z) (setWhenNotExist : bool) : list (list RedisArg) :=
  if setWhenNotExist then mset_set_loop items 0 compressedValues maxAgeMs []
  else
    let '(msetCommand, expires) :=
      mset_mset_loop items 0 compressedValues maxAgeMs [Arg_str "MSET"] [] in
    msetCommand :: expires.



(** [n] in decimal, as [+] with a string writes it. *)
Definition number_to_string (n : nat) : string := stdpp.pretty.pretty_nat n.

(** A value that can be written and read back: a string that is empty, or,
    with compression enabled, at most as long as the pivot or compressed
    with success, or, with compression disabled, without a tag of its
    own. *)
Definition storable (nfcall_snappy_compress : string -> Attempt Buffer)
    (enabled : bool) (v : JsVal) : Prop :=
  match v with
  | JStr s =>
      s = EmptyString
      \/ (if enabled
          then String.length s <= 750
               \/ exists b, nfcall_snappy_compress s = Returns (Fulfilled b)
          else untagged s)
  | _ => False
  end.

(** The resolver that a call on the client at time [now] was given. *)
Definition resolver_of {A} (R : Type) (now : Z) (d : Dispatch A) : option (Resolver R) :=
  match d with
  | Without_client _ => None
  | With_client _ name desc => Some (_makeNodeResolverWithTimeout now name desc)
  end.

Module Adapter.

Section Operations.

Variable nfcall_snappy_compress : string -> Attempt Buffer.
Variable nfcall_snappy_uncompress : Buffer -> Attempt string.
Variable toString_base64 : Buffer -> string.
Variable Buffer_from_base64 : string -> Buffer.

Variable this : RedisConnection.

(** [incr(key, increment)]; [None] is an [increment] left out. *)
Definition incr (key : string) (increment : option Z) : Dispatch Z :=
  let increment := match increment with None => 1%Z | Some n => n end in
  let params := [Arg_str key; Arg_num increment] in
  With_client (client_incrby params) "incrby" ("Redis [incr] key: " +:+ key).

(** [set(key, val, maxAgeMs, setWhenNotExist)]. *)
Definition set (key : string) (val : JsVal) (maxAgeMs : Z) (setWhenNotExist : bool)
  : Dispatch JsVal :=
  then_dispatch (_compress nfcall_snappy_compress toString_base64 this val)
    (fun compressedVal =>
       let params := [Arg_str key; Arg_val compressedVal; Arg_str "PX"; Arg_num maxAgeMs] in
       let params := if setWhenNotExist then (params ++ [Arg_str "NX"])%list else params in
       With_client (client_set params) "set" ("Redis [set] key: " +:+ key)).

(** [mset(items, maxAgeMs, setWhenNotExist)]. *)
Definition mset (items : list Item) (maxAgeMs : Z) (setWhenNotExist : bool)
  : Dispatch JsVal :=
  match items with
  | [] => Without_client (Q_resolve JUndefined)
  | item0 :: _ =>
      let compressedPromises :=
        map (fun item => _compress nfcall_snappy_compress toString_base64 this
                           (item_value item)) items in
      then_dispatch (Q_all compressedPromises)
        (fun compressedValues =>
           With_client
             (client_multi_exec
                (mset_commands items compressedValues maxAgeMs setWhenNotExist))
             "mset"
             ("Redis [mset] key.0: " +:+ item_key item0 +:+ " key.length: "
              +:+ number_to_string (length items)))
  end.

(** [del(key)]. *)
Definition del (key : string) : Dispatch Z :=
  With_client (client_del key) "del" ("Redis [del] key: " +:+ key).

(** [mget(keys)] up to the call on the client. *)
Definition mget (keys : list string) : Dispatch (list JsVal) :=
  match keys with
  | [] => Without_client (Q_resolve [])
  | key0 :: _ =>
      With_client (client_mget keys) "mget"
        ("Redis [mget] key.0: " +:+ key0 +:+ " key.length: "
         +:+ number_to_string (length keys))
  end.

(** [get(key)] up to the call on the client: it is [mget([key])]. *)
Definition get (key : string) : Dispatch (list JsVal) := mget [key].

(** The callback of [mget] for the values of the client, up to [Q.all]: a
    [null] becomes [undefined], every other value goes through
    [_uncompress]. *)
Definition mget_then (vals : list JsVal) : Promise (list JsVal) :=
  Q_all (map (fun v =>
                match v with
                | JNull => Q_resolve JUndefined
                | _ => _uncompress nfcall_snappy_uncompress Buffer_from_base64 this v
                end) vals).

(** [returnFirstResult(results)]. *)
Definition returnFirstResult (results : list JsVal) : JsVal := element results 0.

(** The callbacks of [get(key)], which is [mget([key]).then(returnFirstResult)]. *)
Definition get_then (vals : list JsVal) : Promise JsVal :=
  then_value (mget_then vals) returnFirstResult.

(** What comes back for values written by [mset] or [set] and stored as they
    were sent: the encoding of every value, then the decoding of what the
    client returns for them. *)
Definition write_then_read (values : list JsVal) : Promise (list JsVal) :=
  then_ (Q_all (map (_compress nfcall_snappy_compress toString_base64 this) values))
        mget_then.

End Operations.

End Adapter.

(* ===================================================================== *)
(** * RedisConnection: the connection                                     *)
(* ===================================================================== *)

(** An event that the connection emits. *)
Inductive Emitted : Type :=
  | Emitted_connect
  | Emitted_disconnect
  | Emitted_destroy
  | Emitted_error (e : Reason).

(** The fields of a [RedisConnection] that the life cycle reads and writes.
    A client is the number of calls of [redis.createClient] before the one
    that made it; [_client] is [None] when the field is [null] or deleted.
    [attached] holds the clients that have the three bound handlers,
    [quits] the clients that [quit()] was called on, oldest first, and
    [emitted] what the connection has emitted, oldest first. *)
Record Connection : Type := {
  _isAvailable : bool;
  _client : option nat;
  created : nat;
  attached : gset nat;
  quits : list nat;
  emitted : list Emitted
}.

(** The constructor. *)
Definition new_Connection : Connection :=
  {| _isAvailable := false; _client := None; created := 0;
     attached := ∅; quits := []; emitted := [] |}.

Definition isAvailable (c : Connection) : bool := _isAvailable c.

(** [connect()]. *)
Definition connect (c : Connection) : Connection :=
  if _isAvailable c then c
  else
    let attached :=
      match _client c with
      | Some old => attached c ∖ {[old]}
      | None => attached c
      end in
    let client := created c in
    {| _isAvailable := _isAvailable c;
       _client := Some client;
       created := S (created c);
       attached := attached ∪ {[client]};
       quits := quits c;
       emitted := emitted c |}.

(** [disconnect()]; the flag is [true] when [this._client.quit()] throws a
    [TypeError] because there is no client, which is after the assignment
    and before the [emit]. *)
Definition disconnect (c : Connection) : Connection * bool :=
  match _client c with
  | Some client =>
      ({| _isAvailable := false; _client := _client c; created := created c;
          attached := attached c;
          quits := (quits c ++ [client])%list;
          emitted := (emitted c ++ [Emitted_disconnect])%list |}, false)
  | None =>
      ({| _isAvailable := false; _client := _client c; created := created c;
          attached := attached c; quits := quits c; emitted := emitted c |}, true)
  end.

(** [destroy()]; an exception of [disconnect()] ends it. *)
Definition destroy (c : Connection) : Connection * bool :=
  let '(c, threw) := disconnect c in
  if threw then (c, true)
  else
    ({| _isAvailable := _isAvailable c; _client := None; created := created c;
        attached := attached c; quits := quits c;
        emitted := (emitted c ++ [Emitted_destroy])%list |}, false).

Definition _onConnect (c : Connection) : Connection :=
  {| _isAvailable := true; _client := _client c; created := created c;
     attached := attached c; quits := quits c;
     emitted := (emitted c ++ [Emitted_connect])%list |}.

Definition _onError (e : Reason) (c : Connection) : Connection :=
  {| _isAvailable := _isAvailable c; _client := _client c; created := created c;
     attached := attached c; quits := quits c;
     emitted := (emitted c ++ [Emitted_error e])%list |}.

Definition _onEnd (c : Connection) : Connection :=
  {| _isAvailable := false; _client := _client c; created := created c;
     attached := attached c; quits := quits c;
     emitted := (emitted c ++ [Emitted_disconnect])%list |}.

(** What happens to a connection: a caller calls a method, or a client
    emits ['connect'], ['error'] or ['end'], which runs the handler if that
    client has it. *)
Inductive Life : Type :=
  | Life_connect
  | Life_disconnect
  | Life_destroy
  | Client_connect (client : nat)
  | Client_error (client : nat) (e : Reason)
  | Client_end (client : nat).

Definition live (c : Connection) (ev : Life) : Connection :=
  match ev with
  | Life_connect => connect c
  | Life_disconnect => (disconnect c).1
  | Life_destroy => (destroy c).1
  | Client_connect client =>
      if decide (client ∈ attached c) then _onConnect c else c
  | Client_error client e =>
      if decide (client ∈ attached c) then _onError e c else c
  | Client_end client =>
      if decide (client ∈ attached c) then _onEnd c else c
  end.

Definition lived (l : list Life) (c : Connection) : Connection :=
  fold_left live l c.

Definition is_destroy (ev : Life) : bool :=
  match ev with
  | Life_destroy => true
  | _ => false
  end.

(** The current client has the handlers, every client with the handlers is
    the current one or one that was told to quit, and clients are numbered
    below [created]. *)
Definition handlers_in_place (c : Connection) : Prop :=
  (forall client, _client c = Some client -> client ∈ attached c)
  /\ (forall client, client ∈ attached c ->
        _client c = Some client \/ client ∈ quits c)
  /\ (forall client, client ∈ attached c -> client < created c).

(** Without [destroy]: only the current client has the handlers, and an
    available connection has a client. *)
Definition one_client (c : Connection) : Prop :=
  (forall client, client ∈ attached c -> _client c = Some client)
  /\ (_isAvailable c = true -> is_Some (_client c)).

(** A state that a cache can be in: the promises are those of the calls of
    [mget] on the delegate, in order and with the same keys, and no such
    call was made without keys. *)
Definition fetches_are_the_calls (this : MultiplexingCache) : Prop :=
  mget_calls (journal this) = fetch_keys <$> promises this
  /\ Forall (fun keys => keys <> []) (mget_calls (journal this)).

(** An event that is not the settlement of the promise [p]. *)
Definition leaves_pending (p : nat) (op : Op) : bool :=
  match op with
  | Op_settled q _ => negb (q =? p)%nat
  | _ => true
  end.

(** Every character of a string passes a test. *)
Fixpoint all_chars (test : ascii -> bool) (s : string) : bool :=
  match s with
  | EmptyString => true
  | String c s' => test c && all_chars test s'
  end.

(** The name or the value of a field: no white space and no colon. *)
Definition field_text (s : string) : bool :=
  all_chars (fun c => negb (is_white_space c) && negb (Ascii.eqb c ":")) s.

(** What may follow a value on its line: white space other than a line
    feed, such as the carriage return that ends a line of the reply. *)
Definition padding (s : string) : bool :=
  all_chars (fun c => is_white_space c && negb (Ascii.eqb c "010")) s.

(** A line that is no field: no colon (and no line feed). *)
Definition no_field (s : string) : bool :=
  all_chars (fun c => negb (Ascii.eqb c "010") && negb (Ascii.eqb c ":")) s.

(** The text of a count: no white space, colon, comma or equals sign. *)
Definition count_text (s : string) : bool :=
  all_chars (fun c => negb (is_white_space c) && negb (Ascii.eqb c ":")
                      && negb (Ascii.eqb c ",") && negb (Ascii.eqb c "=")) s.

(* ===================================================================== *)
(** * Keys, reasons and numbers that the model is exact for               *)
(* ===================================================================== *)

(** Three places where the code leans on JavaScript and on [kew] in a way
    that the definitions above do not follow, and that the theorems below
    keep out by a hypothesis:
    - [_pendingGets], [aggregatedData] and the maps of [_convertToMap] are
      plain objects, so they inherit the members of [Object.prototype]:
      [this._pendingGets['constructor']] is a function, not a promise, and
      [get('constructor')] throws where the model starts a fetch;
    - a promise of [kew] that is rejected with a falsy reason does not
      notify its listeners, so [Q.allSettled] hands over no rejection whose
      reason is falsy;
    - [parseInt] returns a double, which holds every integer below [2^53]
      exactly, where the model computes in [Z]. *)

(** The names of the members of [Object.prototype].  A lookup [obj[k]] in a
    plain object that has no property of its own for such a name finds the
    inherited member, where the lookup in a [gmap] finds nothing. *)
Definition Object_prototype_members : list string :=
  ["constructor"; "toString"; "toLocaleString"; "valueOf"; "hasOwnProperty";
   "isPrototypeOf"; "propertyIsEnumerable"; "__proto__"; "__defineGetter__";
   "__defineSetter__"; "__lookupGetter__"; "__lookupSetter__"].

(** A key that names no member of [Object.prototype]. *)
Definition ordinary_key (k : string) : bool :=
  negb (existsb (String.eqb k) Object_prototype_members).

(** A call of [get] or [mget] for ordinary keys, or any other event. *)
Definition ordinary_op (op : Op) : bool :=
  match op with
  | Op_get key => ordinary_key key
  | Op_mget keys => forallb ordinary_key keys
  | _ => true
  end.

(** A decimal digit. *)
Definition is_decimal_digit (c : ascii) : bool :=
  let n := nat_of_ascii c in ((48 <=? n) && (n <=? 57))%nat.

(** An event other than a settlement with a rejection whose reason is
    falsy. *)
Definition truthy_settlement (op : Op) : bool :=
  match op with
  | Op_settled _ (Rejected e) => truthy_reason e
  | _ => true
  end.

(* ===================================================================== *)
(** * The value codec: what holds                                         *)
(* ===================================================================== *)

Section CodecFacts.

Variable nfcall_snappy_compress : string -> Attempt Buffer.
Variable nfcall_snappy_uncompress : Buffer -> Attempt string.
Variable toString_base64 : Buffer -> string.
Variable Buffer_from_base64 : string -> Buffer.

Local Abbreviation encode := (_compress nfcall_snappy_compress toString_base64).
Local Abbreviation decode := (_uncompress nfcall_snappy_uncompress Buffer_from_base64).

(** With compression disabled, or for a falsy value, the value is stored
    as it is. *)
Lemma _compress_untouched (this : RedisConnection) (value : JsVal) :
  falsy value = true \/ _compressionEnabled this = false ->
  encode this value = Fulfilled value.
Proof.
  intros [H | H]; unfold _compress; rewrite H; [reflexivity |].
  rewrite orb_true_r. reflexivity.
Qed.

(** At or below the pivot the value gets the uncompressed tag. *)
Lemma _compress_short (enabled_this : RedisConnection) (s : string) :
  s <> EmptyString -> _compressionEnabled enabled_this = true ->
  String.length s <= _snappyPivot enabled_this ->
  encode enabled_this (JStr s)
  = Fulfilled (JStr (_uncompressedPrefix enabled_this +:+ s)).
Proof.
  intros Hs He Hl. unfold _compress. rewrite He.
  destruct s as [| c s]; [congruence |]. cbn [falsy orb negb].
  destruct (Nat.ltb_spec (_snappyPivot enabled_this) (String.length (String c s)));
    [lia | reflexivity].
Qed.

(** Past the pivot the outcome is that of [Q.nfcall(snappy.compress, _)]:
    a fulfilled promise gives the compressed tag and the base64 text, a
    synchronous throw gives the uncompressed tag, and a rejected promise
    is the promise that [_compress] returns. *)
Lemma _compress_long (this : RedisConnection) (s : string) :
  _compressionEnabled this = true ->
  _snappyPivot this < String.length s ->
  encode this (JStr s)
  = match nfcall_snappy_compress s with
    | Returns (Fulfilled compressed) =>
        Fulfilled (JStr (_compressedPrefix this +:+ toString_base64 compressed))
    | Returns (Rejected e) => Rejected e
    | Throws _ => Fulfilled (JStr (_uncompressedPrefix this +:+ s))
    end.
Proof.
  intros He Hl. unfold _compress. rewrite He.
  destruct s as [| c s]; [simpl in Hl; lia |]. cbn [falsy orb negb].
  destruct (Nat.ltb_spec (_snappyPivot this) (String.length (String c s))); [| lia].
  destruct (nfcall_snappy_compress (String c s)) as [m | [b | e]]; reflexivity.
Qed.

(** [_uncompress] never reads [_compressionEnabled]. *)
Lemma _uncompress_ignores_setting (a b : bool) (value : JsVal) :
  decode (new_RedisConnection a) value = decode (new_RedisConnection b) value.
Proof. reflexivity. Qed.

Lemma substring_from_app (p s : string) :
  substring_from (String.length p) (p +:+ s) = s.
Proof. induction p as [| c p IH]; [reflexivity | exact IH]. Qed.

Lemma starts_with_app (p s : string) : starts_with p (p +:+ s) = true.
Proof.
  unfold starts_with. induction p as [| c p IH].
  { change (EmptyString +:+ s) with s. destruct s; reflexivity. }
  change (String c p +:+ s) with (String c (p +:+ s)).
  cbn [String.prefix]. destruct (ascii_dec c c); [exact IH | congruence].
Qed.

Hypothesis base64_inverse : forall b, Buffer_from_base64 (toString_base64 b) = b.
Hypothesis snappy_inverse : forall s b,
    nfcall_snappy_compress s = Returns (Fulfilled b) ->
    nfcall_snappy_uncompress b = Returns (Fulfilled s).

(** C2, as amended: for every non-empty value, reading back what was
    written gives the value when compression is enabled and either is not
    attempted or succeeds, and when compression is disabled and the value
    does not itself begin with one of the two tags; with compression
    disabled the value is stored unchanged, without a tag. *)
Theorem roundtrip_unless_raw_value_looks_tagged
    (writer_enabled reader_enabled : bool) (v : string) :
  v <> EmptyString ->
  (if writer_enabled
   then String.length v <= 750 \/
        exists b, nfcall_snappy_compress v = Returns (Fulfilled b)
   else untagged v) ->
  roundtrip nfcall_snappy_compress nfcall_snappy_uncompress
    toString_base64 Buffer_from_base64
    (new_RedisConnection writer_enabled) (new_RedisConnection reader_enabled)
    (JStr v)
  = Fulfilled (JStr v)
  /\ encode (new_RedisConnection false) (JStr v) = Fulfilled (JStr v).
Proof.
  intros Hv H. split; [| apply _compress_untouched; right; reflexivity].
  unfold roundtrip. destruct writer_enabled.
  - destruct (le_lt_dec (String.length v) 750) as [Hshort | Hlong].
    + rewrite _compress_short by (assumption || reflexivity).
      destruct v as [| c v]; [congruence |]. reflexivity.
    + destruct H as [H | [b Hb]]; [lia |].
      rewrite _compress_long by (assumption || reflexivity). rewrite Hb.
      cbn [then_]. unfold _uncompress.
      rewrite starts_with_app, substring_from_app.
      rewrite base64_inverse, (snappy_inverse _ _ Hb). reflexivity.
  - rewrite _compress_untouched by (right; reflexivity).
    destruct H as [H1 H2]. destruct v as [| c v]; [congruence |].
    cbn [then_]. unfold _uncompress. cbn [falsy].
    cbn [_compressedPrefix _uncompressedPrefix new_RedisConnection].
    rewrite H1, H2. reflexivity.
Qed.

End CodecFacts.

(** The loopback codec satisfies what the round trip asks of the
    libraries. *)
Lemma Loopback_base64_inverse (b : Buffer) :
  Loopback.Buffer_from_base64 (Loopback.toString_base64 b) = b.
Proof. apply String.list_byte_of_string_of_list_byte. Qed.

Lemma Loopback_snappy_inverse (s : string) (b : Buffer) :
  Loopback.compress s = Returns (Fulfilled b) ->
  Loopback.uncompress b = Returns (Fulfilled s).
Proof.
  unfold Loopback.compress, Loopback.uncompress. intros H.
  injection H as <-. now rewrite String.string_of_list_byte_of_string.
Qed.

Lemma long_value_length : String.length long_value = 751.
Proof. vm_compute. reflexivity. Qed.

Lemma long_value_not_empty : long_value <> EmptyString.
Proof. intros H. apply (f_equal String.length) in H. now rewrite long_value_length in H. Qed.

(** C2, a value for which the amended round trip applies: 751 characters,
    written with compression enabled. *)
Lemma roundtrip_unless_raw_value_looks_tagged_witness :
  roundtrip Loopback.compress Loopback.uncompress
    Loopback.toString_base64 Loopback.Buffer_from_base64
    (new_RedisConnection true) (new_RedisConnection false) (JStr long_value)
  = Fulfilled (JStr long_value)
  /\ _compress Loopback.compress Loopback.toString_base64
       (new_RedisConnection false) (JStr long_value)
     = Fulfilled (JStr long_value).
Proof.
  apply (roundtrip_unless_raw_value_looks_tagged
           Loopback.compress Loopback.uncompress
           Loopback.toString_base64 Loopback.Buffer_from_base64
           Loopback_base64_inverse Loopback_snappy_inverse
           true false long_value long_value_not_empty).
  right. exists (String.list_byte_of_string long_value). reflexivity.
Defined.

(** C2, as stated, fails: with compression disabled the value
    ["@orig@abc"] is stored as it is, and reading it back strips what looks
    like the uncompressed tag and gives ["abc"]. *)
Lemma roundtrip_raw_value_looks_tagged_counterexample :
  roundtrip Loopback.compress Loopback.uncompress
    Loopback.toString_base64 Loopback.Buffer_from_base64
    (new_RedisConnection false) (new_RedisConnection false) (JStr "@orig@abc")
  = Fulfilled (JStr "abc")
  /\ ~ roundtrip_for_every_value.
Proof.
  split; [reflexivity |]. intros H.
  specialize (H Loopback.compress Loopback.uncompress
                Loopback.toString_base64 Loopback.Buffer_from_base64
                Loopback_base64_inverse Loopback_snappy_inverse
                false "@orig@abc").
  assert (Hne : "@orig@abc" <> EmptyString) by discriminate.
  assert (Hshort : String.length "@orig@abc" <= 750
                   \/ exists b, Loopback.compress "@orig@abc" = Returns (Fulfilled b))
    by (left; cbn; lia).
  specialize (H Hne Hshort). discriminate H.
Qed.

(** C3, where the code departs from it: a value past the pivot, compression
    enabled, and a [snappy.compress] that reports a failure.  The promise
    that [_compress] returns is rejected with that failure; the value with
    the uncompressed tag is not what it resolves to. *)
Theorem _compress_hands_on_the_compression_failure :
  _compress Failing.compress Loopback.toString_base64
    (new_RedisConnection true) (JStr long_value)
  = Rejected (Thrown "snappy: compression failed")
  /\ _compress Failing.compress Loopback.toString_base64
       (new_RedisConnection true) (JStr long_value)
     <> Fulfilled (JStr ("@orig@" +:+ long_value)).
Proof.
  assert (E : _compress Failing.compress Loopback.toString_base64
                (new_RedisConnection true) (JStr long_value)
              = Rejected (Thrown "snappy: compression failed")).
  { rewrite _compress_long; [reflexivity | reflexivity |].
    rewrite long_value_length. cbn. lia. }
  split; [exact E | rewrite E; discriminate].
Qed.

(** C4, where the code departs from it: a stored value with the compressed
    tag whose payload [snappy.uncompress] rejects.  Whatever
    [compressionEnabled] is, the promise that [_uncompress] returns is
    rejected; it does not resolve to [undefined]. *)
Theorem _uncompress_hands_on_the_decompression_failure (enabled : bool) :
  _uncompress Failing.uncompress Loopback.Buffer_from_base64
    (new_RedisConnection enabled) (JStr "@snappy@AAAA")
  = Rejected (Thrown "Invalid input")
  /\ _uncompress Failing.uncompress Loopback.Buffer_from_base64
       (new_RedisConnection enabled) (JStr "@snappy@AAAA")
     <> Fulfilled JUndefined.
Proof. split; [reflexivity | discriminate]. Qed.

(* ===================================================================== *)
(** * getServerInfo                                                       *)
(* ===================================================================== *)

(** The callback of [getServerInfo] resolves whatever the text is. *)
Lemma getServerInfo_then_resolves (new_ServerInfo : ServerInfo) (text : string) :
  exists info, getServerInfo_then new_ServerInfo text = Fulfilled info.
Proof. unfold getServerInfo_then, Q_resolve. eauto. Qed.

(** C5, where the code departs from it: the reply ["used_memory:1024"] has
    no [db0] line and none of the other fields.  [getServerInfo] resolves,
    with [NaN] for the fields it could not read and [numOfKeys] as the
    constructor left it; it is not rejected. *)
Theorem getServerInfo_resolves_on_malformed_text (new_ServerInfo : ServerInfo) :
  getServerInfo new_ServerInfo FalsyReason "used_memory:1024"
  = Fulfilled {| memoryBytes := Int 1024;
                 memoryRssBytes := NaN;
                 evictedKeys := NaN;
                 numOfConnections := NaN;
                 numOfKeys := numOfKeys new_ServerInfo |}
  /\ getServerInfo new_ServerInfo FalsyReason "used_memory:1024"
     <> Rejected malformatted.
Proof. split; [vm_compute; reflexivity | discriminate]. Qed.

(* ===================================================================== *)
(** * The node resolver with a timeout                                    *)
(* ===================================================================== *)

Section ResolverFacts.

Context {A : Type}.
Implicit Types (r : Resolver A) (m : Instruments) (s : Signal A).

Lemma getStats_stats_update m (op : string) (sample : Z) :
  getStats (stats_update op sample m) op = (getStats m op ++ [sample])%list.
Proof. unfold getStats at 1, stats_update. cbn. now rewrite lookup_insert_eq. Qed.

Lemma getTimeoutCount_stats_update m (op op' : string) (sample : Z) :
  getTimeoutCount (stats_update op sample m) op' = getTimeoutCount m op'.
Proof. reflexivity. Qed.

Lemma getStats_timeoutCounter_inc m (op op' : string) :
  getStats (timeoutCounter_inc op m) op' = getStats m op'.
Proof. reflexivity. Qed.

Lemma getTimeoutCount_timeoutCounter_inc m (op : string) :
  getTimeoutCount (timeoutCounter_inc op m) op = S (getTimeoutCount m op).
Proof. unfold getTimeoutCount at 1, timeoutCounter_inc. cbn. now rewrite lookup_insert_eq. Qed.

(** A signal changes neither the name nor the start time. *)
Lemma signal_keeps_identity s (st : Resolver A * Instruments) :
  opName (signal s st).1 = opName st.1 /\ startTime (signal s st).1 = startTime st.1.
Proof.
  destruct st as [r m], s as [| now err data]; cbn.
  - unfold on_timeout. destruct (timeout r); auto.
  - unfold on_callback. destruct (isTimeout r); auto.
Qed.

(** One signal: a completion adds its sample, the timer adds none. *)
Lemma signal_stats s (st : Resolver A * Instruments) :
  getStats (signal s st).2 (opName st.1)
  = (getStats st.2 (opName st.1) ++ elapsed (startTime st.1) [s])%list.
Proof.
  destruct st as [r m], s as [| now err data]; cbn.
  - unfold on_timeout. destruct (timeout r); cbn.
    + rewrite getStats_timeoutCounter_inc. now rewrite app_nil_r.
    + now rewrite app_nil_r.
  - unfold on_callback. destruct (isTimeout r); cbn; apply getStats_stats_update.
Qed.

(** One signal leaves a settled promise as it is. *)
Lemma signal_settled s (st : Resolver A * Instruments) (o : A + Failure) :
  deferred st.1 = Some o -> deferred (signal s st).1 = Some o.
Proof.
  destruct st as [r m], s as [| now err data]; cbn; intros H.
  - unfold on_timeout. destruct (timeout r); cbn; [| exact H]. now rewrite H.
  - unfold on_callback. destruct (isTimeout r); cbn; [exact H |].
    rewrite H. now destruct (truthy_reason err).
Qed.

Lemma signals_stats (l : list (Signal A)) (st : Resolver A * Instruments) :
  getStats (signals l st).2 (opName st.1)
  = (getStats st.2 (opName st.1) ++ elapsed (startTime st.1) l)%list.
Proof.
  revert st. induction l as [| s l IH]; intros st.
  - cbn. now rewrite app_nil_r.
  - change (signals (s :: l) st) with (signals l (signal s st)).
    destruct (signal_keeps_identity s st) as [Hn Ht].
    rewrite <- Hn, IH, Hn, Ht, signal_stats, <- app_assoc.
    f_equal. unfold elapsed. cbn. now destruct s.
Qed.

Lemma signals_settled (l : list (Signal A)) (st : Resolver A * Instruments)
    (o : A + Failure) :
  deferred st.1 = Some o -> deferred (signals l st).1 = Some o.
Proof.
  revert st. induction l as [| s l IH]; intros st H; [exact H |].
  change (signals (s :: l) st) with (signals l (signal s st)).
  apply IH, signal_settled, H.
Qed.

(** When the completion comes first the promise settles with what the
    client reported and the timer is cleared: it never fires. *)
Lemma completion_first (now done : Z) (name desc : string) m
    (err : Reason) (data : A) :
  let st := on_callback done err data (_makeNodeResolverWithTimeout now name desc) m in
  deferred st.1 = Some (if truthy_reason err then inr (ClientError err) else inl data)
  /\ getStats st.2 name = (getStats m name ++ [done - now]%Z)%list
  /\ on_timeout st.1 st.2 = st.
Proof.
  cbn. split; [now destruct (truthy_reason err) |].
  split; [apply getStats_stats_update | reflexivity].
Qed.

(** C9: when the timer fires before the completion, the promise is rejected
    with a [TimeoutError], the timeout counter of the operation goes up by
    one and no sample is recorded; the completion that arrives afterwards
    records its elapsed time and leaves the promise and the counter as they
    were.  In any sequence of signals every completion records its elapsed
    time, in order, and a promise that has settled keeps its settlement. *)
Theorem timeout_rejects_and_late_completion_only_updates_stats
    (now late : Z) (name desc : string) m (err : Reason) (data : A) :
  let r0 := _makeNodeResolverWithTimeout now name desc in
  let fired := on_timeout r0 m in
  let completed := on_callback late err data fired.1 fired.2 in
  (deferred fired.1
   = Some (inr (TimeoutError ("Cache request timeout. " +:+ desc)))
   /\ getTimeoutCount fired.2 name = S (getTimeoutCount m name)
   /\ getStats fired.2 name = getStats m name)
  /\ (deferred completed.1 = deferred fired.1
      /\ getStats completed.2 name = (getStats m name ++ [late - now]%Z)%list
      /\ getTimeoutCount completed.2 name = getTimeoutCount fired.2 name)
  /\ (forall (l : list (Signal A)) (st : Resolver A * Instruments),
        getStats (signals l st).2 (opName st.1)
        = (getStats st.2 (opName st.1) ++ elapsed (startTime st.1) l)%list
        /\ forall o, deferred st.1 = Some o -> deferred (signals l st).1 = Some o).
Proof.
  cbn zeta. split; [| split].
  - cbn. split; [reflexivity |].
    split; [apply getTimeoutCount_timeoutCounter_inc | reflexivity].
  - cbn. split; [reflexivity |].
    split; [| reflexivity].
    rewrite getStats_stats_update. reflexivity.
  - intros l st. split; [apply signals_stats | intros o; apply signals_settled].
Qed.

End ResolverFacts.

(** C9 on a run: a [get] dispatched at time 0 with a timeout of 50 whose
    reply arrives at time 200. *)
Lemma timeout_rejects_and_late_completion_only_updates_stats_witness :
  let st := signals [TimerFires; Completion 200 FalsyReason (JStr "late")]
              (_makeNodeResolverWithTimeout 0 "mget" "Redis [mget] key.0: a key.length: 1",
               {| stats := ∅; timeoutCounters := ∅ |}) in
  deferred st.1
  = Some (inr (TimeoutError "Cache request timeout. Redis [mget] key.0: a key.length: 1"))
  /\ getStats st.2 "mget" = [200%Z]
  /\ getTimeoutCount st.2 "mget" = 1.
Proof.
  pose proof (timeout_rejects_and_late_completion_only_updates_stats
                0 200 "mget" "Redis [mget] key.0: a key.length: 1"
                {| stats := ∅; timeoutCounters := ∅ |} FalsyReason (JStr "late"))
    as (Hfired & Hlate & Hall).
  cbn zeta in *.
  destruct Hfired as (Hd & Hc & _). destruct Hlate as (Hd' & Hs & Hc').
  change (signals [TimerFires; Completion 200 FalsyReason (JStr "late")] ?st)
    with (on_callback 200 FalsyReason (JStr "late") (on_timeout st.1 st.2).1
                      (on_timeout st.1 st.2).2).
  cbn [fst snd] in *.
  split; [now rewrite Hd', Hd |].
  split; [now rewrite Hs | now rewrite Hc', Hc].
Defined.

(* ===================================================================== *)
(** * MultiplexingCache: what the methods do to the object                *)
(* ===================================================================== *)

Section CacheFacts.

Implicit Types (this : MultiplexingCache) (key k : string) (keys : list string).
Implicit Types (index : gmap string nat).

Lemma lookup_delete_all (f : string + Item -> string) (l : list (string + Item))
    index k :
  foldl (fun m x => delete (f x) m) index l !! k
  = if decide (k ∈ f <$> l) then None else index !! k.
Proof.
  revert index. induction l as [| x l IH]; intros index.
  - cbn. destruct (decide (k ∈ [])) as [H | H]; [by apply elem_of_nil in H | done].
  - change (foldl (fun m x => delete (f x) m) index (x :: l))
      with (foldl (fun m x => delete (f x) m) (delete (f x) index) l).
    rewrite IH, fmap_cons.
    destruct (decide (k ∈ f <$> l)) as [Hin | Hout].
    + rewrite decide_True; [done | by apply elem_of_cons; right].
    + destruct (decide (f x = k)) as [<- | Hne].
      * rewrite lookup_delete_eq, decide_True; [done | by apply elem_of_cons; left].
      * rewrite lookup_delete_ne, decide_False; [done | | done].
        intros [-> | H]%elem_of_cons; done.
Qed.

Lemma lookup_insert_all (p : nat) keys index k :
  foldl (fun m x => <[x := p]> m) index keys !! k
  = if decide (k ∈ keys) then Some p else index !! k.
Proof.
  revert index. induction keys as [| x l IH]; intros index.
  - cbn. destruct (decide (k ∈ [])) as [H | H]; [by apply elem_of_nil in H | done].
  - change (foldl (fun m x => <[x := p]> m) index (x :: l))
      with (foldl (fun m x => <[x := p]> m) (<[x := p]> index) l).
    rewrite IH.
    destruct (decide (k ∈ l)) as [Hin | Hout].
    + rewrite decide_True; [done | by apply elem_of_cons; right].
    + destruct (decide (x = k)) as [<- | Hne].
      * rewrite lookup_insert_eq, decide_True; [done | by apply elem_of_cons; left].
      * rewrite lookup_insert_ne, decide_False; [done | | done].
        intros [-> | H]%elem_of_cons; done.
Qed.

(** [_invalidateKeys] deletes the entries in order and does nothing else. *)
Lemma _invalidateKeys_eq (l : list (string + Item)) this :
  _invalidateKeys l this
  = (tt, {| _pendingGets := foldl (fun m x => delete (key_of x) m) (_pendingGets this) l;
            promises := promises this;
            journal := (journal this ++ (Deleted <$> (key_of <$> l)))%list |}).
Proof.
  unfold _invalidateKeys. revert this.
  induction l as [| x l IH]; intros this; cbn.
  - unfold ret. rewrite app_nil_r. by destruct this.
  - unfold bind, delete_pendingGet at 1. rewrite IH. cbn.
    by rewrite <- app_assoc.
Qed.

(** The loop that registers one promise for several keys. *)
Lemma register_all_eq (p : nat) keys this :
  for_each keys (fun k => set_pendingGet k p) this
  = (tt, {| _pendingGets := foldl (fun m x => <[x := p]> m) (_pendingGets this) keys;
            promises := promises this;
            journal := (journal this ++ ((fun k => Registered k p) <$> keys))%list |}).
Proof.
  revert this. induction keys as [| x l IH]; intros this; cbn.
  - unfold ret. rewrite app_nil_r. by destruct this.
  - unfold bind, set_pendingGet at 1. rewrite IH. cbn.
    by rewrite <- app_assoc.
Qed.

(** A write: the entries go, then the call is made. *)
Lemma write_eq (l : list (string + Item)) (call : DelegateCall) this :
  invalidated_then_forwarded this (key_of <$> l) call
    ((_invalidateKeys l >> delegate call) this).2.
Proof.
  unfold bind. rewrite _invalidateKeys_eq. cbn.
  split; [by rewrite <- app_assoc |]. split; [| done].
  intros k. apply lookup_delete_all.
Qed.

(** [get]. *)
Lemma get_eq key this :
  get key this
  = match _pendingGets this !! key with
    | Some promise => (promise, this)
    | None =>
        (length (promises this),
         {| _pendingGets := <[key := length (promises this)]> (_pendingGets this);
            promises := (promises this
                         ++ [{| fetch_keys := [key]; fetch_state := Pending |}])%list;
            journal := (journal this
                        ++ [Called (Delegate_mget [key]);
                            Registered key (length (promises this))])%list |})
    end.
Proof.
  unfold get, bind, this_pendingGets.
  destruct (_pendingGets this !! key); [done |].
  cbn. by rewrite <- app_assoc.
Qed.

(** The first loop of [mget] keeps the keys without an entry, in order,
    and collects the promises of the others, in order. *)
Lemma mget_loop_eq index keys (keysToFetch : list string) (waits : list nat) :
  mget_loop index keys keysToFetch waits
  = ((keysToFetch ++ filter (fun k => index !! k = None) keys)%list,
     (waits ++ omap (fun k => index !! k) keys)%list).
Proof.
  revert keysToFetch waits.
  induction keys as [| k l IH]; intros keysToFetch waits.
  - cbn. by rewrite !app_nil_r.
  - cbn [mget_loop omap list_omap]. rewrite filter_cons.
    destruct (index !! k) as [p |] eqn:E.
    + rewrite IH, decide_False, <- app_assoc; done.
    + rewrite IH, decide_True, <- app_assoc; done.
Qed.

(** [mget]. *)
Lemma mget_eq keys this :
  let keysToFetch := filter (fun k => _pendingGets this !! k = None) keys in
  let reused := omap (fun k => _pendingGets this !! k) keys in
  let promise := length (promises this) in
  mget keys this
  = match keysToFetch with
    | [] => ({| mget_keys := keys; mget_key := last keys;
                promisesToWaitFor := reused |}, this)
    | _ :: _ =>
        ({| mget_keys := keys; mget_key := last keys;
            promisesToWaitFor := (reused ++ [promise])%list |},
         {| _pendingGets := foldl (fun m x => <[x := promise]> m)
                                  (_pendingGets this) keysToFetch;
            promises := (promises this
                         ++ [{| fetch_keys := keysToFetch;
                                fetch_state := Pending |}])%list;
            journal := (journal this
                        ++ Called (Delegate_mget keysToFetch)
                           :: ((fun k => Registered k promise) <$> keysToFetch))%list |})
    end.
Proof.
  cbn zeta. unfold mget, bind, this_pendingGets. rewrite mget_loop_eq. cbn [app].
  destruct (filter _ keys) as [| k l] eqn:E; [done |].
  cbn [length Nat.ltb Nat.leb]. unfold _mget at 1. rewrite register_all_eq.
  cbn. by rewrite <- app_assoc.
Qed.

End CacheFacts.

(* ===================================================================== *)
(** * MultiplexingCache: writes                                           *)
(* ===================================================================== *)

(** C8: each of [set], [mset], [incr] and [del], in any state of the cache,
    first deletes the entry of every key involved and then calls the
    delegate; it touches no promise.  The journal shows the order. *)
Theorem writes_invalidate_then_forward (this : MultiplexingCache) :
  (forall key val maxAgeMs nx,
      invalidated_then_forwarded this [key] (Delegate_set key val maxAgeMs nx)
        (set key val maxAgeMs nx this).2)
  /\ (forall items maxAgeMs nx,
         invalidated_then_forwarded this (item_key <$> items)
           (Delegate_mset items maxAgeMs nx) (mset items maxAgeMs nx this).2)
  /\ (forall key increment,
         invalidated_then_forwarded this [key] (Delegate_incr key increment)
           (incr key increment this).2)
  /\ (forall key,
         invalidated_then_forwarded this [key] (Delegate_del key) (del key this).2).
Proof.
  split; [| split; [| split]].
  - intros key val maxAgeMs nx. apply (write_eq [inl key]).
  - intros items maxAgeMs nx. unfold mset.
    replace (item_key <$> items)
      with (key_of <$> (inr <$> items : list (string + Item))).
    + apply write_eq.
    + rewrite <- list_fmap_compose. reflexivity.
  - intros key increment. apply (write_eq [inl key]).
  - intros key. apply (write_eq [inl key]).
Qed.

(* ===================================================================== *)
(** * MultiplexingCache: reads                                            *)
(* ===================================================================== *)

(** C10: [mget([])] leaves the cache as it is (no call on the delegate, no
    entry added or removed) and its promise resolves to the empty list. *)
Theorem mget_of_no_keys (this : MultiplexingCache) :
  mget [] this
  = ({| mget_keys := []; mget_key := None; promisesToWaitFor := [] |}, this)
  /\ mget_result this (mget [] this).1 = Some (Result []).
Proof. split; reflexivity. Qed.

(** Whatever the batches are, the errors of a [PartialResultError] sit under
    one property, named by the last key of the call. *)
Lemma mget_aggregate_errors (key : option string)
    (maps : list (Promise (gmap string JsVal)))
    (data : gmap string JsVal) (errors : gmap string Reason) :
  dom (mget_aggregate key maps data errors).2 ⊆ dom errors ∪ {[property_name key]}.
Proof.
  revert data errors. induction maps as [| [value | reason] maps IH];
    intros data errors; cbn [mget_aggregate].
  - cbn [snd]. apply union_subseteq_l.
  - apply IH.
  - destruct (truthy_reason reason); [| apply IH].
    etrans; [apply IH |]. rewrite dom_insert.
    apply union_least; [| apply union_subseteq_r].
    apply union_least; [apply union_subseteq_r | apply union_subseteq_l].
Qed.

(** C1, where the code departs from it: in [partial_failure_run] the batch
    for ["a"] failed and the batch for ["b"] succeeded.  The error carries
    the value of ["b"], and its failure map blames ["b"], the last key of
    the call; ["a"], the key of the failed batch, is not in it. *)
Theorem partial_result_blames_the_last_key :
  fetch_keys <$> promises partial_failure_run.2 = [["a"]; ["b"]]
  /\ promise_state partial_failure_run.2 0 = Settled (Rejected (Thrown "boom"))
  /\ promise_state partial_failure_run.2 1
     = Settled (Fulfilled {["b" := JStr "vb"]})
  /\ mget_result partial_failure_run.2 partial_failure_run.1
     = Some (PartialResultError {["b" := JStr "vb"]} {["b" := Thrown "boom"]})
  /\ mget_result partial_failure_run.2 partial_failure_run.1
     <> Some (PartialResultError {["b" := JStr "vb"]} {["a" := Thrown "boom"]}).
Proof.
  assert (E : mget_result partial_failure_run.2 partial_failure_run.1
              = Some (PartialResultError {["b" := JStr "vb"]} {["b" := Thrown "boom"]}))
    by (vm_compute; reflexivity).
  split; [vm_compute; reflexivity |].
  split; [vm_compute; reflexivity |].
  split; [vm_compute; reflexivity |].
  split; [exact E |].
  rewrite E. intros H.
  apply (f_equal (fun o => match o with
                           | Some (PartialResultError _ errors) => errors !! "a"
                           | _ => None
                           end)) in H.
  vm_compute in H. discriminate H.
Qed.

Section Coalescing.

Implicit Types (this : MultiplexingCache) (key k : string) (keys : list string).




Lemma delegate_calls_registered (p : nat) keys :
  delegate_calls ((fun k => Registered k p) <$> keys) = [].
Proof. induction keys as [| k l IH]; [done | exact IH]. Qed.

(** [mget] calls the delegate once, for the keys without an entry, or not
    at all when there is none. *)
Lemma mget_delegate_calls keys this :
  delegate_calls (journal (mget keys this).2)
  = (delegate_calls (journal this)
     ++ if bool_decide (filter (fun k => _pendingGets this !! k = None) keys = [])
        then [] else [Delegate_mget (filter (fun k => _pendingGets this !! k = None) keys)])%list.
Proof.
  pose proof (mget_eq keys this) as E. cbn zeta in E. rewrite E. clear E.
  destruct (filter _ keys) as [| k0 l] eqn:F; cbn [snd journal].
  - by rewrite app_nil_r.
  - rewrite (bool_decide_eq_false_2 (k0 :: l = [])); [| done].
    unfold delegate_calls. rewrite omap_app. f_equal.
    cbn [omap list_omap]. f_equal. apply delegate_calls_registered.
Qed.





End Coalescing.



(* ===================================================================== *)
(** * MultiplexingCache: settlement                                       *)
(* ===================================================================== *)

Section Settlement.

Implicit Types (this : MultiplexingCache) (key k : string) (keys : list string).

(** The settlement of the fetch behind a pending promise, on success and on
    failure: the entries of its keys go and the promise settles. *)
Lemma _mget_settled_eq (p : nat) keys
    (outcome : Promise (option (list JsVal))) this :
  promises this !! p = Some {| fetch_keys := keys; fetch_state := Pending |} ->
  _mget_settled p outcome this
  = (tt, {| _pendingGets := foldl (fun m x => delete (key_of x) m)
                                  (_pendingGets this) (inl <$> keys);
            promises :=
              alter (fun f => {| fetch_keys := fetch_keys f;
                                 fetch_state :=
                                   Settled (then_value outcome (_convertToMap keys)) |})
                    p (promises this);
            journal := (journal this ++ (Deleted <$> keys))%list |}).
Proof.
  intros H. unfold _mget_settled. rewrite H.
  assert (key_of <$> (inl <$> keys : list (string + Item)) = keys) as Hk.
  { rewrite <- list_fmap_compose. apply list_fmap_id. }
  destruct outcome as [results | e]; unfold bind; rewrite _invalidateKeys_eq;
    cbn; by rewrite Hk.
Qed.

Lemma keys_of_strings keys :
  key_of <$> (inl <$> keys : list (string + Item)) = keys.
Proof. rewrite <- list_fmap_compose. apply list_fmap_id. Qed.

(** [index_in_flight] holds of a new cache and every event keeps it. *)
Lemma index_in_flight_new : index_in_flight new_MultiplexingCache.
Proof. intros k p H. cbn in H. by rewrite lookup_empty in H. Qed.

Lemma index_in_flight_exec (op : Op) this :
  index_in_flight this -> index_in_flight (exec this op).
Proof.
  intros Inv.
  assert (forall l call,
             index_in_flight ((_invalidateKeys l >> delegate call) this).2) as Hwrite.
  { intros l call k p. destruct (write_eq l call this) as (_ & Hlook & Hprom).
    rewrite Hlook, Hprom. case_decide; [done | apply Inv]. }
  destruct op as [key | keys | items maxAgeMs nx | key increment
                  | key val maxAgeMs nx | key | p outcome]; cbn [exec].
  - rewrite get_eq. destruct (_pendingGets this !! key) as [q |] eqn:E; [exact Inv |].
    intros k p. cbn [snd _pendingGets promises].
    destruct (decide (key = k)) as [-> | Hne].
    + rewrite lookup_insert_eq. intros [= <-]. exists [k].
      split; [apply list_lookup_middle; done | by apply list_elem_of_singleton].
    + rewrite lookup_insert_ne by done. intros H.
      destruct (Inv k p H) as (ks & Hp & Hin). exists ks.
      split; [by apply lookup_app_l_Some | done].
  - pose proof (mget_eq keys this) as E. cbn zeta in E. rewrite E. clear E.
    destruct (filter _ keys) as [| k0 l] eqn:F; [exact Inv |].
    intros k p. cbn [snd _pendingGets promises]. rewrite lookup_insert_all.
    case_decide as Hin.
    + intros [= <-]. exists (k0 :: l).
      split; [apply list_lookup_middle; done | done].
    + intros H. destruct (Inv k p H) as (ks & Hp & Hk). exists ks.
      split; [by apply lookup_app_l_Some | done].
  - apply Hwrite.
  - apply Hwrite.
  - apply Hwrite.
  - apply Hwrite.
  - destruct (promises this !! p) as [[keys [| settled]] |] eqn:E.
    + rewrite (_mget_settled_eq p keys outcome this E).
      intros k q. cbn [snd _pendingGets promises].
      rewrite lookup_delete_all, keys_of_strings.
      case_decide as Hin; [done |]. intros H.
      destruct (Inv k q H) as (ks & Hq & Hk). exists ks. split; [| done].
      destruct (decide (p = q)) as [-> | Hne].
      * rewrite E in Hq. injection Hq as <-. done.
      * by rewrite list_lookup_alter_ne.
    + unfold _mget_settled. rewrite E. exact Inv.
    + unfold _mget_settled. rewrite E. exact Inv.
Qed.

Lemma index_in_flight_run (ops : list Op) this :
  index_in_flight this -> index_in_flight (run ops this).
Proof.
  revert this. induction ops as [| op ops IH]; intros this Inv; [exact Inv |].
  apply (IH (exec this op)), index_in_flight_exec, Inv.
Qed.

(** Entries never go back to an older promise. *)
Lemma made_since_exec (n : nat) k (op : Op) this :
  made_since n k this -> made_since n k (exec this op).
Proof.
  intros [Hlen Hent].
  assert (forall l call,
             made_since n k ((_invalidateKeys l >> delegate call) this).2) as Hwrite.
  { intros l call. destruct (write_eq l call this) as (_ & Hlook & Hprom).
    split; [by rewrite Hprom |]. intros q. rewrite Hlook.
    case_decide; [done | apply Hent]. }
  destruct op as [key | keys | items maxAgeMs nx | key increment
                  | key val maxAgeMs nx | key | p outcome]; cbn [exec].
  - rewrite get_eq. destruct (_pendingGets this !! key) as [q0 |] eqn:E; [done |].
    split; cbn [snd _pendingGets promises]; [rewrite length_app; lia |].
    intros q. destruct (decide (key = k)) as [-> | Hne].
    + rewrite lookup_insert_eq. intros [= <-]. exact Hlen.
    + rewrite lookup_insert_ne by done. apply Hent.
  - pose proof (mget_eq keys this) as E. cbn zeta in E. rewrite E. clear E.
    destruct (filter _ keys) as [| k0 l] eqn:F; [done |].
    split; cbn [snd _pendingGets promises]; [rewrite length_app; lia |].
    intros q. rewrite lookup_insert_all. case_decide; [| apply Hent].
    intros [= <-]. exact Hlen.
  - apply Hwrite.
  - apply Hwrite.
  - apply Hwrite.
  - apply Hwrite.
  - destruct (promises this !! p) as [[keys [| settled]] |] eqn:E.
    + rewrite (_mget_settled_eq p keys outcome this E).
      split; cbn [snd _pendingGets promises]; [by rewrite length_alter |].
      intros q. rewrite lookup_delete_all, keys_of_strings.
      case_decide; [done | apply Hent].
    + unfold _mget_settled. rewrite E. done.
    + unfold _mget_settled. rewrite E. done.
Qed.

Lemma made_since_run (n : nat) k (ops : list Op) this :
  made_since n k this -> made_since n k (run ops this).
Proof.
  revert this. induction ops as [| op ops IH]; intros this H; [exact H |].
  apply (IH (exec this op)), made_since_exec, H.
Qed.

(** C7: when the delegate settles the call behind a pending promise, with a
    result or with a failure, the entries of exactly the keys of that batch
    are removed from [_pendingGets] there and then and the promise settles;
    a [get] or [mget] that follows for one of these keys calls the delegate
    for it again, and whatever happens afterwards, an entry of such a key
    holds a promise made after the settlement.  In every state that a cache
    can reach an entry of [_pendingGets] holds a promise that is still
    pending, so no read is served from a fetch that has settled. *)
Theorem settled_fetch_is_evicted_and_not_served_again :
  (forall this (p : nat) keys (outcome : Promise (option (list JsVal))),
      promises this !! p = Some {| fetch_keys := keys; fetch_state := Pending |} ->
      let after := (_mget_settled p outcome this).2 in
      (forall k, _pendingGets after !! k
                 = if decide (k ∈ keys) then None else _pendingGets this !! k)
      /\ journal after = (journal this ++ (Deleted <$> keys))%list
      /\ promise_state after p
         = Settled (then_value outcome (_convertToMap keys))
      /\ (forall k, k ∈ keys ->
            delegate_calls (journal (get k after).2)
            = (delegate_calls (journal after) ++ [Delegate_mget [k]])%list)
      /\ (forall k ks, k ∈ keys -> k ∈ ks ->
            exists keysToFetch,
              k ∈ keysToFetch
              /\ delegate_calls (journal (mget ks after).2)
                 = (delegate_calls (journal after)
                    ++ [Delegate_mget keysToFetch])%list)
      /\ (forall k (ops : list Op) (q : nat),
            k ∈ keys ->
            _pendingGets (run ops after) !! k = Some q ->
            length (promises after) <= q))
  /\ (forall (ops : list Op) k (p : nat),
         _pendingGets (run ops new_MultiplexingCache) !! k = Some p ->
         promise_state (run ops new_MultiplexingCache) p = Pending).
Proof.
  split.
  - intros this p keys outcome Hp. cbn zeta.
    rewrite (_mget_settled_eq p keys outcome this Hp). cbn [snd].
    set (after := {| _pendingGets := _; promises := _; journal := _ |}).
    assert (forall k, _pendingGets after !! k
                      = if decide (k ∈ keys) then None else _pendingGets this !! k)
      as Hlook.
    { intros k. subst after. cbn [_pendingGets].
      by rewrite lookup_delete_all, keys_of_strings. }
    split; [exact Hlook |]. split; [done |]. split; [| split; [| split]].
    + unfold promise_state. subst after. cbn [promises].
      rewrite list_lookup_alter, Hp, decide_True by done. done.
    + intros k Hk. rewrite get_eq, Hlook, decide_True by done. cbn [snd journal].
      unfold delegate_calls. by rewrite omap_app.
    + intros k ks Hk Hks.
      pose proof (mget_delegate_calls ks after) as Hcalls.
      exists (filter (fun k => _pendingGets after !! k = None) ks).
      assert (k ∈ filter (fun k => _pendingGets after !! k = None) ks) as Hin.
      { apply list_elem_of_filter. split; [| done].
        by rewrite Hlook, decide_True. }
      split; [exact Hin |]. rewrite Hcalls.
      rewrite bool_decide_eq_false_2; [done |].
      intros Hnil. rewrite Hnil in Hin. by apply elem_of_nil in Hin.
    + intros k ops q Hk.
      apply (made_since_run (length (promises after)) k ops after).
      split; [done |]. intros q'. by rewrite Hlook, decide_True.
  - intros ops k p H.
    destruct (index_in_flight_run ops _ index_in_flight_new k p H) as (ks & Hp & _).
    unfold promise_state. by rewrite Hp.
Qed.

End Settlement.

(** C7 on a run: [get("a")] on a new cache, then the delegate fails the
    call; the entry of ["a"] is gone and the next [get("a")] calls the
    delegate again. *)
Lemma settled_fetch_is_evicted_and_not_served_again_witness :
  let this := (get "a" new_MultiplexingCache).2 in
  let after := (_mget_settled 0 (Rejected (Thrown "boom")) this).2 in
  _pendingGets after !! "a" = None
  /\ delegate_calls (journal (get "a" after).2)
     = [Delegate_mget ["a"]; Delegate_mget ["a"]].
Proof.
  cbn zeta.
  destruct (proj1 settled_fetch_is_evicted_and_not_served_again
              (get "a" new_MultiplexingCache).2 0 ["a"]
              (Rejected (Thrown "boom")) eq_refl)
    as (Hlook & _ & _ & Hget & _ & _).
  split.
  - rewrite Hlook. reflexivity.
  - rewrite (Hget "a"); [reflexivity | apply list_elem_of_singleton; reflexivity].
Defined.

(* ===================================================================== *)
(** * RedisConnection: the data operations, what holds                    *)
(* ===================================================================== *)

Lemma map_fmap {A B} (f : A -> B) (l : list A) : map f l = f <$> l.
Proof. induction l as [| a l IH]; [done | cbn; by rewrite IH]. Qed.

Section QAll.

Context {A : Type}.

Lemma Q_all_fulfilled (l : list (Promise A)) (values : list A) :
  Q_all l = Fulfilled values <-> l = Fulfilled <$> values.
Proof.
  revert values. induction l as [| [a | e] l IH]; intros values; cbn [Q_all].
  - split; [intros [= <-]; done | by destruct values].
  - destruct (Q_all l) as [vs | e] eqn:E.
    + split.
      * intros [= <-]. cbn. f_equal. by apply IH.
      * destruct values as [| v values]; [done |]. intros [= -> H].
        apply IH in H. by injection H as ->.
    + split; [done |]. destruct values as [| v values]; [done |].
      intros [= -> H]. apply IH in H. done.
  - split; [done | by destruct values].
Qed.

Lemma Q_all_rejected (l : list (Promise A)) :
  (exists e, Q_all l = Rejected e) <-> (exists e, Rejected e ∈ l).
Proof.
  induction l as [| [a | e] l IH]; cbn [Q_all].
  - split; intros [e H]; [done | by apply elem_of_nil in H].
  - destruct (Q_all l) as [vs | e] eqn:E.
    + split; [intros [e H]; done |].
      intros [e [H | H]%elem_of_cons]; [done |].
      destruct (proj2 IH (ex_intro _ e H)) as [e' He']. done.
    + split; [| by eauto]. intros _.
      destruct (proj1 IH (ex_intro _ e eq_refl)) as [e' He'].
      exists e'. by apply elem_of_cons; right.
  - split; [| by eauto]. intros _. exists e. by apply elem_of_cons; left.
Qed.

Lemma Q_all_length (l : list (Promise A)) (values : list A) :
  Q_all l = Fulfilled values -> length values = length l.
Proof. intros ->%Q_all_fulfilled. by rewrite length_fmap. Qed.

End QAll.

Section MsetCommands.

Implicit Types (items : list Item) (cvs : list JsVal).



End MsetCommands.

Section AdapterFacts.

Variable nfcall_snappy_compress : string -> Attempt Buffer.
Variable nfcall_snappy_uncompress : Buffer -> Attempt string.
Variable toString_base64 : Buffer -> string.
Variable Buffer_from_base64 : string -> Buffer.

Local Abbreviation encode := (_compress nfcall_snappy_compress toString_base64).
Local Abbreviation decode := (_uncompress nfcall_snappy_uncompress Buffer_from_base64).
Local Abbreviation mset := (Adapter.mset nfcall_snappy_compress toString_base64).
Local Abbreviation mget_then :=
  (Adapter.mget_then nfcall_snappy_uncompress Buffer_from_base64).
Local Abbreviation get_then :=
  (Adapter.get_then nfcall_snappy_uncompress Buffer_from_base64).

Implicit Types (this : RedisConnection) (items : list Item) (cvs vals : list JsVal).


(** X2: [mset] sends one transaction or nothing.  Without items it resolves at
    once; when the encoding of some item is rejected it is rejected and no
    command is sent for any item; when every item is encoded it makes one
    call on the client, with the commands for the encoded values. *)
Theorem mset_sends_one_transaction_or_nothing this items (maxAgeMs : Z) (nx : bool) :
  (items = [] -> mset this items maxAgeMs nx = Without_client (Fulfilled JUndefined))
  /\ ((exists item e, item ∈ items /\ encode this (item_value item) = Rejected e) ->
      exists e, mset this items maxAgeMs nx = Without_client (Rejected e))
  /\ (forall cvs,
         items <> [] ->
         Forall2 (fun item cv => encode this (item_value item) = Fulfilled cv) items cvs ->
         client_calls (mset this items maxAgeMs nx)
         = [client_multi_exec (mset_commands items cvs maxAgeMs nx)]).
Proof.
  split; [by intros -> |]. split.
  - intros (item & e & Hin & He).
    assert (exists e', Q_all (map (fun item => encode this (item_value item)) items)
                       = Rejected e') as [e' He'].
    { apply Q_all_rejected. exists e. rewrite <- He, map_fmap.
      apply (list_elem_of_fmap_2 (fun item => encode this (item_value item))), Hin. }
    exists e'. unfold Adapter.mset. destruct items as [| item0 items']; [by apply elem_of_nil in Hin |].
    by rewrite He'.
  - intros cvs Hne Hall.
    assert (Q_all (map (fun item => encode this (item_value item)) items)
            = Fulfilled cvs) as Hq.
    { apply Q_all_fulfilled. clear Hne.
      induction Hall as [| item cv items' cvs' H _ IH]; [done |].
      cbn. by rewrite H, IH. }
    unfold Adapter.mset. destruct items as [| item0 items']; [done |].
    by rewrite Hq.
Qed.

(** What [_uncompress] resolves to for a value without the compressed tag. *)
Lemma _uncompress_plain this (v : JsVal) :
  (forall s, v = JStr s -> starts_with (_compressedPrefix this) s = false) ->
  exists r, decode this v = Fulfilled r.
Proof.
  intros H. unfold _uncompress. destruct (falsy v); [by eauto |].
  destruct v as [| | s]; [by eauto | by eauto |].
  rewrite (H s eq_refl). destruct (starts_with _ s); by eauto.
Qed.

(** X3: The callback of [mget] keeps the positions and fails as a whole.  When
    it resolves, the result has one entry for each value of the client, a
    [null] reads as [undefined] and every other entry is what [_uncompress]
    resolves to for the value at its position.  It is rejected exactly when
    [_uncompress] is rejected for some value, and it is never rejected when
    no value has the compressed tag. *)
Theorem mget_then_keeps_positions_and_fails_as_a_whole this vals :
  (forall results,
      mget_then this vals = Fulfilled results ->
      length results = length vals
      /\ forall i v, vals !! i = Some v ->
           exists r, results !! i = Some r
                     /\ (v = JNull -> r = JUndefined)
                     /\ (v <> JNull -> decode this v = Fulfilled r))
  /\ ((exists e, mget_then this vals = Rejected e)
      <-> exists v e, v ∈ vals /\ decode this v = Rejected e)
  /\ ((forall s, JStr s ∈ vals -> starts_with (_compressedPrefix this) s = false) ->
      exists results, mget_then this vals = Fulfilled results).
Proof.
  unfold Adapter.mget_then. rewrite map_fmap.
  set (f := fun v => match v with
                     | JNull => Q_resolve JUndefined
                     | _ => decode this v
                     end).
  assert (forall v, v <> JNull -> f v = decode this v) as Hf
    by (intros [| |]; done).
  split; [| split].
  - intros results H. split; [by rewrite (Q_all_length _ _ H), length_fmap |].
    apply Q_all_fulfilled in H. intros i v Hv.
    assert ((f <$> vals) !! i = Some (f v)) as Hi by (by rewrite list_lookup_fmap, Hv).
    rewrite H, list_lookup_fmap in Hi.
    destruct (results !! i) as [r |]; [| done]. injection Hi as Hi.
    exists r. split; [done |]. split.
    + intros ->. by injection Hi.
    + intros Hv'. by rewrite <- Hf.
  - rewrite Q_all_rejected. split.
    + intros [e (v & Hv & Hin)%list_elem_of_fmap]. exists v, e. split; [done |].
      destruct v; try done.
    + intros (v & e & Hin & He). exists e. rewrite <- He.
      destruct (decide (v = JNull)) as [-> | Hne]; [done |].
      rewrite <- Hf by done. by apply list_elem_of_fmap_2.
  - intros Hplain.
    destruct (Q_all (f <$> vals)) as [results | e] eqn:E; [by eauto |].
    assert (exists e, Rejected e ∈ f <$> vals) as [e' (v & Hv & Hin)%list_elem_of_fmap]
      by (apply Q_all_rejected; eauto).
    destruct (decide (v = JNull)) as [-> | Hne]; [done |].
    rewrite Hf in Hv by done.
    destruct (_uncompress_plain this v) as [r Hr]; [| by rewrite Hr in Hv].
    intros s ->. by apply Hplain.
Qed.

End AdapterFacts.

Section WriteThenRead.

Variable nfcall_snappy_compress : string -> Attempt Buffer.
Variable nfcall_snappy_uncompress : Buffer -> Attempt string.
Variable toString_base64 : Buffer -> string.
Variable Buffer_from_base64 : string -> Buffer.

Hypothesis base64_inverse : forall b, Buffer_from_base64 (toString_base64 b) = b.
Hypothesis snappy_inverse : forall s b,
    nfcall_snappy_compress s = Returns (Fulfilled b) ->
    nfcall_snappy_uncompress b = Returns (Fulfilled s).

Local Abbreviation encode := (_compress nfcall_snappy_compress toString_base64).
Local Abbreviation decode := (_uncompress nfcall_snappy_uncompress Buffer_from_base64).

(** One storable value: it is stored as a string, and that string decodes
    to the value. *)
Lemma storable_stored_and_decoded (enabled : bool) (v : JsVal) :
  storable nfcall_snappy_compress enabled v ->
  exists stored,
    encode (new_RedisConnection enabled) v = Fulfilled (JStr stored)
    /\ decode (new_RedisConnection enabled) (JStr stored) = Fulfilled v.
Proof.
  destruct v as [| | s]; [done | done |]. cbn [storable].
  destruct s as [| c s].
  { intros _. exists EmptyString. split; reflexivity. }
  intros [H | H]; [done |]. destruct enabled.
  - destruct (le_lt_dec (String.length (String c s)) 750) as [Hshort | Hlong].
    + exists ("@orig@" +:+ String c s).
      split; [by apply _compress_short | reflexivity].
    + destruct H as [H | [b Hb]]; [lia |].
      exists ("@snappy@" +:+ toString_base64 b). split.
      * rewrite _compress_long by (assumption || reflexivity). by rewrite Hb.
      * unfold _uncompress.
        change (_compressedPrefix (new_RedisConnection true)) with "@snappy@".
        rewrite starts_with_app, substring_from_app.
        assert (falsy (JStr ("@snappy@" +:+ toString_base64 b)) = false) as -> by done.
        by rewrite base64_inverse, (snappy_inverse _ _ Hb).
  - exists (String c s). split; [apply _compress_untouched; by right |].
    destruct H as [H1 H2]. unfold _uncompress. cbn [falsy].
    cbn [_compressedPrefix _uncompressedPrefix new_RedisConnection].
    by rewrite H1, H2.
Qed.

(** X4: Values that are written by [set] or [mset] and handed back by the client
    as they were sent are read back unchanged by [mget], in order: strings
    that are empty, or, with compression enabled, short or compressed with
    success, or, with compression disabled, without a tag of their own. *)
Theorem storable_values_are_read_back (enabled : bool) (values : list JsVal) :
  Forall (storable nfcall_snappy_compress enabled) values ->
  Adapter.write_then_read nfcall_snappy_compress nfcall_snappy_uncompress
    toString_base64 Buffer_from_base64 (new_RedisConnection enabled) values
  = Fulfilled values.
Proof.
  intros Hall. unfold Adapter.write_then_read.
  assert (exists stored,
             Q_all (map (encode (new_RedisConnection enabled)) values)
             = Fulfilled (JStr <$> stored)
             /\ Adapter.mget_then nfcall_snappy_uncompress Buffer_from_base64
                  (new_RedisConnection enabled) (JStr <$> stored)
                = Fulfilled values) as (stored & -> & Hread); [| exact Hread].
  induction Hall as [| v values Hv _ (stored & Hw & Hr)].
  - by exists [].
  - destruct (storable_stored_and_decoded enabled v Hv) as (st & Hst & Hdec).
    exists (st :: stored). split.
    + cbn [map Q_all]. by rewrite Hst, Hw.
    + unfold Adapter.mget_then in *. cbn [fmap list_fmap map Q_all].
      by rewrite Hdec, Hr.
Qed.

End WriteThenRead.


(** X2, an instance: An [mset] of two items, the second of which cannot be compressed. *)
Lemma mset_sends_one_transaction_or_nothing_witness :
  exists e,
    Adapter.mset Failing.compress Loopback.toString_base64 (new_RedisConnection true)
      [{| item_key := "a"; item_value := JStr "x" |};
       {| item_key := "b"; item_value := JStr long_value |}] 5000 false
    = Without_client (Rejected e).
Proof.
  apply (proj1 (proj2 (mset_sends_one_transaction_or_nothing
                         Failing.compress Loopback.toString_base64
                         (new_RedisConnection true) _ 5000 false))).
  exists {| item_key := "b"; item_value := JStr long_value |},
         (Thrown "snappy: compression failed").
  split.
  - apply elem_of_cons. right. apply elem_of_cons. left. reflexivity.
  - cbn [item_value]. rewrite _compress_long; [reflexivity | reflexivity |].
    rewrite long_value_length. cbn. lia.
Defined.

(** X3, an instance: A reply with one value that [snappy.uncompress] rejects. *)
Lemma mget_then_keeps_positions_and_fails_as_a_whole_witness :
  exists e,
    Adapter.mget_then Failing.uncompress Loopback.Buffer_from_base64
      (new_RedisConnection false) [JStr "ok"; JNull; JStr "@snappy@AAAA"]
    = Rejected e.
Proof.
  apply (proj1 (proj2 (mget_then_keeps_positions_and_fails_as_a_whole
                         Failing.uncompress Loopback.Buffer_from_base64
                         (new_RedisConnection false)
                         [JStr "ok"; JNull; JStr "@snappy@AAAA"]))).
  exists (JStr "@snappy@AAAA"), (Thrown "Invalid input").
  split; [| reflexivity].
  apply elem_of_cons. right. apply elem_of_cons. right. apply elem_of_cons. left.
  reflexivity.
Defined.

(** X4, an instance: Three values written with compression enabled: the empty string, a
    short one and one past the pivot. *)
Lemma storable_values_are_read_back_witness :
  Adapter.write_then_read Loopback.compress Loopback.uncompress
    Loopback.toString_base64 Loopback.Buffer_from_base64 (new_RedisConnection true)
    [JStr ""; JStr "abc"; JStr long_value]
  = Fulfilled [JStr ""; JStr "abc"; JStr long_value].
Proof.
  apply (storable_values_are_read_back
           Loopback.compress Loopback.uncompress
           Loopback.toString_base64 Loopback.Buffer_from_base64
           Loopback_base64_inverse Loopback_snappy_inverse true).
  repeat apply Forall_cons_2; [| | | apply Forall_nil_2].
  - left. reflexivity.
  - right. left. cbn. lia.
  - right. right. eexists. reflexivity.
Defined.

(* ===================================================================== *)
(** * MultiplexingCache: what the callers get                             *)
(* ===================================================================== *)

Section Results.

Implicit Types (this : MultiplexingCache) (key k : string) (keys : list string).
Implicit Types (rs : list JsVal) (m : gmap string JsVal).

Lemma _convertToMap_loop_other keys (i : nat) rs m k :
  k ∉ keys -> _convertToMap_loop keys i rs m !! k = m !! k.
Proof.
  revert i m. induction keys as [| x keys IH]; intros i m Hk; [done |].
  cbn [_convertToMap_loop]. apply not_elem_of_cons in Hk as [Hne Hk].
  rewrite IH by done. by rewrite lookup_insert_ne.
Qed.

Lemma _convertToMap_loop_at keys (i j : nat) rs m k :
  keys !! j = Some k -> k ∉ drop (S j) keys ->
  _convertToMap_loop keys i rs m !! k = Some (element rs (i + j)).
Proof.
  revert i j m. induction keys as [| x keys IH]; intros i j m Hj Hlast; [done |].
  cbn [_convertToMap_loop]. destruct j as [| j].
  - injection Hj as ->. cbn in Hlast. rewrite drop_0 in Hlast.
    rewrite _convertToMap_loop_other by done.
    by rewrite lookup_insert_eq, Nat.add_0_r.
  - cbn in Hj, Hlast. rewrite (IH (S i) j) by done. f_equal. f_equal. lia.
Qed.

Lemma _convertToMap_loop_dom keys (i : nat) rs m k :
  is_Some (_convertToMap_loop keys i rs m !! k) <-> k ∈ keys \/ is_Some (m !! k).
Proof.
  revert i m. induction keys as [| x keys IH]; intros i m.
  - cbn. split; [by right | intros [H | H]; [by apply elem_of_nil in H | done]].
  - cbn [_convertToMap_loop]. rewrite IH, elem_of_cons.
    destruct (decide (x = k)) as [-> | Hne].
    + rewrite lookup_insert_eq. split; [by eauto | intros _; by right].
    + rewrite lookup_insert_ne by done. split; intros [H | H]; eauto.
      destruct H as [-> | H]; [done | by left].
Qed.

Lemma _convertToMap_distinct keys rs (j : nat) k :
  NoDup keys -> keys !! j = Some k ->
  _convertToMap keys (Some rs) !! k = Some (element rs j).
Proof.
  intros Hnd Hj. unfold _convertToMap.
  rewrite (_convertToMap_loop_at keys 0 j); [done | done |].
  intros [n Hn]%list_elem_of_lookup. rewrite lookup_drop in Hn.
  pose proof (NoDup_lookup keys _ _ k Hnd Hj Hn). lia.
Qed.

(** X5: [_convertToMap]: the map has a property for exactly the keys of the
    batch, also when the delegate returned fewer results than keys (the
    value is then [undefined]); a key holds the result at its last position
    in the batch, which for distinct keys is its position. *)
Theorem _convertToMap_last_position_wins keys rs :
  (forall k, is_Some (_convertToMap keys (Some rs) !! k) <-> k ∈ keys)
  /\ (forall j k, keys !! j = Some k -> k ∉ drop (S j) keys ->
        _convertToMap keys (Some rs) !! k = Some (element rs j))
  /\ (forall j k, NoDup keys -> keys !! j = Some k ->
        _convertToMap keys (Some rs) !! k = Some (element rs j)).
Proof.
  split; [| split].
  - intros k. unfold _convertToMap. rewrite _convertToMap_loop_dom, lookup_empty.
    split; [intros [H | [x H]]; done | by left].
  - intros j k Hj Hlast. unfold _convertToMap.
    by rewrite (_convertToMap_loop_at keys 0 j).
  - intros j k. apply _convertToMap_distinct.
Qed.

Lemma filter_all_true {A} (P : A -> Prop) `{forall x, Decision (P x)} (l : list A) :
  Forall P l -> filter P l = l.
Proof.
  induction 1 as [| x l Hx _ IH]; [done |].
  by rewrite filter_cons, decide_True, IH.
Qed.

Lemma omap_all_none {A B} (f : A -> option B) (l : list A) :
  Forall (fun x => f x = None) l -> omap f l = [].
Proof.
  induction 1 as [| x l Hx _ IH]; [done |]. cbn [omap list_omap]. by rewrite Hx.
Qed.

(** Reading the properties of the keys of a batch off its map gives the
    results back, for distinct keys and one result for each key. *)
Lemma properties_of_distinct_keys keys rs :
  NoDup keys -> length rs = length keys ->
  map (fun k => property (_convertToMap keys (Some rs)) k) keys = rs.
Proof.
  intros Hnd Hlen. rewrite map_fmap. apply list_eq. intros i.
  rewrite list_lookup_fmap.
  destruct (keys !! i) as [k |] eqn:E.
  - change (Some (property (_convertToMap keys (Some rs)) k) = rs !! i).
    unfold property. rewrite (_convertToMap_distinct keys rs i k Hnd E).
    unfold element. apply lookup_lt_Some in E.
    destruct (rs !! i) as [r |] eqn:R; [done |].
    apply lookup_ge_None in R. lia.
  - symmetry. apply lookup_ge_None. apply lookup_ge_None in E. cbn. lia.
Qed.

End Results.

(** X5, an instance: A batch that names a key twice: the second result is the one kept. *)
Lemma _convertToMap_last_position_wins_witness :
  _convertToMap ["a"; "b"; "a"] (Some [JStr "x"; JStr "y"; JStr "z"]) !! "a"
  = Some (JStr "z").
Proof.
  refine (proj1 (proj2 (_convertToMap_last_position_wins ["a"; "b"; "a"]
                          [JStr "x"; JStr "y"; JStr "z"])) 2 "a" eq_refl _).
  cbn. apply not_elem_of_nil.
Defined.

Section Transparency.

Implicit Types (this : MultiplexingCache) (key k : string) (keys : list string).
Implicit Types (rs : list JsVal).

(** X6: With nothing in flight for its keys, [mget] hands back what the delegate
    returns: for distinct keys that name no member of [Object.prototype]
    and have no entry, and a delegate that resolves its one call with one
    result for each key, the promise of [mget] resolves to those results,
    in order. *)
Theorem mget_returns_the_results_of_the_delegate this keys rs :
  keys <> [] -> NoDup keys ->
  forallb ordinary_key keys = true ->
  Forall (fun k => _pendingGets this !! k = None) keys ->
  length rs = length keys ->
  let call := (mget keys this).1 in
  let sent := (mget keys this).2 in
  let answered :=
    (_mget_settled (length (promises this)) (Fulfilled (Some rs)) sent).2 in
  delegate_calls (journal sent)
  = (delegate_calls (journal this) ++ [Delegate_mget keys])%list
  /\ mget_result sent call = None
  /\ mget_result answered call = Some (Result rs).
Proof.
  intros Hne Hnd _ Hfree Hlen. cbn zeta.
  pose proof (mget_delegate_calls keys this) as Hcalls.
  pose proof (mget_eq keys this) as E. cbn zeta in E.
  rewrite (filter_all_true _ keys Hfree) in E, Hcalls.
  rewrite (omap_all_none _ keys Hfree) in E.
  destruct keys as [| k0 keys'] eqn:K; [done |]. rewrite <- K in *.
  assert (filter (fun k => _pendingGets this !! k = None) keys = keys) as F
    by (by apply filter_all_true).
  split.
  { rewrite Hcalls, bool_decide_eq_false_2; [done | by rewrite K]. }
  assert (mget keys this
          = ({| mget_keys := keys; mget_key := last keys;
                promisesToWaitFor := [length (promises this)] |},
             {| _pendingGets := foldl (fun m x => <[x := length (promises this)]> m)
                                      (_pendingGets this) keys;
                promises := (promises this
                             ++ [{| fetch_keys := keys; fetch_state := Pending |}])%list;
                journal := (journal this
                            ++ Called (Delegate_mget keys)
                               :: ((fun k => Registered k (length (promises this)))
                                     <$> keys))%list |})) as ->.
  { rewrite E, K. reflexivity. }
  cbn [fst snd].
  split.
  - unfold mget_result, promise_state. cbn [promisesToWaitFor fmap list_fmap promises].
    by rewrite list_lookup_middle.
  - rewrite (_mget_settled_eq _ keys); [| by apply list_lookup_middle].
    unfold mget_result, promise_state.
    cbn [snd promisesToWaitFor fmap list_fmap promises mget_keys mget_key].
    rewrite list_lookup_alter, decide_True, list_lookup_middle by done.
    cbn [fmap option_fmap option_map fetch_state Q_allSettled then_value then_].
    unfold mget_then. cbn [mget_aggregate].
    rewrite (right_id_L ∅ (∪)).
    assert ((size (∅ : gmap string Reason) =? 0)%nat = true) as -> by done.
    by rewrite properties_of_distinct_keys.
Qed.

End Transparency.

(** X6, an instance: [mget(["a", "b"])] on a new cache, answered with two values. *)
Lemma mget_returns_the_results_of_the_delegate_witness :
  mget_result
    (_mget_settled 0 (Fulfilled (Some [JStr "x"; JStr "y"]))
       (mget ["a"; "b"] new_MultiplexingCache).2).2
    (mget ["a"; "b"] new_MultiplexingCache).1
  = Some (Result [JStr "x"; JStr "y"]).
Proof.
  refine (proj2 (proj2 (mget_returns_the_results_of_the_delegate
                          new_MultiplexingCache ["a"; "b"] [JStr "x"; JStr "y"]
                          _ _ eq_refl _ eq_refl))).
  - discriminate.
  - apply NoDup_cons_2; [| apply NoDup_singleton].
    intros H%list_elem_of_singleton. discriminate H.
  - repeat apply Forall_cons_2; [reflexivity | reflexivity | apply Forall_nil_2].
Defined.

Section Aggregation.

Implicit Types (key : option string) (keys : list string) (k : string).
Implicit Types (maps : list (Promise (gmap string JsVal))).
Implicit Types (data : gmap string JsVal) (errors : gmap string Reason).

Lemma mget_aggregate_no_errors key maps data errors :
  (mget_aggregate key maps data errors).2 = ∅
  <-> errors = ∅ /\ forall e, Rejected e ∈ maps -> truthy_reason e = false.
Proof.
  revert data errors. induction maps as [| [value | reason] maps IH];
    intros data errors; cbn [mget_aggregate].
  - cbn. split; [| by intros [-> _]].
    intros ->. split; [done |]. intros e H. by apply elem_of_nil in H.
  - rewrite IH. split; intros [-> H]; (split; [done |]); intros e He.
    + apply elem_of_cons in He as [He | He]; [done | by apply H].
    + apply H. by apply elem_of_cons; right.
  - destruct (truthy_reason reason) eqn:T; rewrite IH.
    + split.
      * intros [H _]. by apply insert_non_empty in H.
      * intros [_ H]. specialize (H reason). rewrite T in H.
        discriminate H. by apply elem_of_cons; left.
    + split; intros [-> H]; (split; [done |]); intros e He.
      * apply elem_of_cons in He as [[= ->] | He]; [done | by apply H].
      * apply H. by apply elem_of_cons; right.
Qed.

Lemma mget_aggregate_absent key maps data errors k :
  (forall m, Fulfilled m ∈ maps -> m !! k = None) ->
  (mget_aggregate key maps data errors).1 !! k = data !! k.
Proof.
  revert data errors. induction maps as [| [value | reason] maps IH];
    intros data errors H; cbn [mget_aggregate]; [done | |].
  - rewrite IH by (intros m Hm; apply H; by apply elem_of_cons; right).
    rewrite lookup_union_r; [done |]. apply H. by apply elem_of_cons; left.
  - assert (forall m, Fulfilled m ∈ maps -> m !! k = None) as H'
      by (intros m Hm; apply H; by apply elem_of_cons; right).
    destruct (truthy_reason reason); by apply IH.
Qed.

Lemma mget_aggregate_last key (before after : list (Promise (gmap string JsVal)))
    (m : gmap string JsVal) data errors k (v : JsVal) :
  m !! k = Some v ->
  (forall m', Fulfilled m' ∈ after -> m' !! k = None) ->
  (mget_aggregate key (before ++ Fulfilled m :: after) data errors).1 !! k = Some v.
Proof.
  intros Hv Hafter. revert data errors.
  induction before as [| [value | reason] before IH]; intros data errors.
  - cbn [app mget_aggregate]. rewrite mget_aggregate_absent by done.
    by apply lookup_union_Some_l.
  - cbn [app mget_aggregate]. apply IH.
  - cbn [app mget_aggregate]. destruct (truthy_reason reason); apply IH.
Qed.

(** X7: What the callback of [mget] makes of the settled batches that
    [Q.allSettled] hands to it, for keys that name no member of
    [Object.prototype] and batches whose rejections carry a truthy reason:
    the promise of [mget] resolves exactly when no batch was rejected.  The
    result then has one value for each key, in the order of the keys:
    [undefined] for a key that no batch delivered, and otherwise the value
    of the last batch that delivered the key. *)
Theorem mget_resolves_unless_a_batch_failed keys key maps :
  forallb ordinary_key keys = true ->
  from_option ordinary_key true key = true ->
  (forall e, Rejected e ∈ maps -> truthy_reason e = true) ->
  ((exists result, mget_then keys key maps = Result result)
   <-> forall e, Rejected e ∉ maps)
  /\ (forall result,
         mget_then keys key maps = Result result ->
         length result = length keys
         /\ (forall i k,
               keys !! i = Some k ->
               (forall m, Fulfilled m ∈ maps -> m !! k = None) ->
               result !! i = Some JUndefined)
         /\ (forall i k before m after v,
               keys !! i = Some k ->
               maps = (before ++ Fulfilled m :: after)%list ->
               m !! k = Some v ->
               (forall m', Fulfilled m' ∈ after -> m' !! k = None) ->
               result !! i = Some v)).
Proof.
  intros _ _ Htruthy.
  assert ((forall e, Rejected e ∈ maps -> truthy_reason e = false)
          <-> forall e, Rejected e ∉ maps) as Hnone.
  { split.
    - intros H e He. specialize (H e He). rewrite (Htruthy e He) in H. discriminate H.
    - intros H e He. by destruct (H e). }
  unfold mget_then.
  pose proof (mget_aggregate_no_errors key maps ∅ ∅) as Herr.
  pose proof (fun k => mget_aggregate_absent key maps ∅ ∅ k) as Habsent.
  destruct (mget_aggregate key maps ∅ ∅) as [data errors] eqn:E.
  cbn [fst snd] in Herr, Habsent.
  split.
  - rewrite <- Hnone. destruct (Nat.eqb_spec (size errors) 0) as [Hz | Hnz].
    + apply map_size_empty_iff in Hz. split; [intros _ | by eauto].
      by apply Herr.
    + split; [intros [r H]; done |]. intros H. exfalso. apply Hnz.
      apply map_size_empty_iff, Herr. done.
  - intros result. destruct (size errors =? 0)%nat; [| done]. intros [= <-].
    rewrite map_fmap. split; [by rewrite length_fmap |]. split.
    + intros i k Hk Hnone'. rewrite list_lookup_fmap, Hk. cbn.
      unfold property. by rewrite Habsent, lookup_empty.
    + intros i k before m after v Hk Hmaps Hv Hafter.
      rewrite list_lookup_fmap, Hk. cbn. unfold property.
      pose proof (mget_aggregate_last key before after m ∅ ∅ k v Hv Hafter) as H.
      rewrite <- Hmaps, E in H. cbn [fst] in H. by rewrite H.
Qed.

End Aggregation.

(** X7, an instance: Two batches, both fulfilled: the promise of [mget] resolves. *)
Lemma mget_resolves_unless_a_batch_failed_witness :
  exists result,
    mget_then ["a"; "b"] (Some "b")
      [Fulfilled {["a" := JStr "va"]}; Fulfilled {["b" := JStr "vb"]}]
    = Result result.
Proof.
  assert (forall e,
             Rejected e ∉ [Fulfilled ({["a" := JStr "va"]} : gmap string JsVal);
                           Fulfilled {["b" := JStr "vb"]}]) as Hnone.
  { intros e [He | He]%elem_of_cons; [discriminate He |].
    apply elem_of_cons in He as [He | He]; [discriminate He |].
    by apply elem_of_nil in He. }
  apply (proj2 (proj1 (mget_resolves_unless_a_batch_failed ["a"; "b"] (Some "b")
                         [Fulfilled {["a" := JStr "va"]}; Fulfilled {["b" := JStr "vb"]}]
                         eq_refl eq_refl
                         (fun e He => match Hnone e He with end)))).
  exact Hnone.
Defined.

(* ===================================================================== *)
(** * The node resolver: the first signal decides                         *)
(* ===================================================================== *)

Section FirstSignal.

Context {A : Type}.
Implicit Types (r : Resolver A) (m : Instruments) (l : list (Signal A)).

(** Once the timer is off it stays off and no timeout is counted. *)
Lemma signals_timer_off l (st : Resolver A * Instruments) (name : string) :
  timeout st.1 = false ->
  timeout (signals l st).1 = false
  /\ getTimeoutCount (signals l st).2 name = getTimeoutCount st.2 name.
Proof.
  revert st. induction l as [| s l IH]; intros [r m] Hoff; [done |].
  change (signals (s :: l) (r, m)) with (signals l (signal s (r, m))).
  cbn [fst snd] in Hoff.
  assert (timeout (signal s (r, m)).1 = false
          /\ getTimeoutCount (signal s (r, m)).2 name = getTimeoutCount m name)
    as [Hoff' Hcount].
  { destruct s as [| now err data]; cbn [signal fst snd].
    - unfold on_timeout. by rewrite Hoff.
    - unfold on_callback. by destruct (isTimeout r). }
  destruct (IH _ Hoff') as [H1 H2]. split; [done |]. by rewrite H2, Hcount.
Qed.

(** X8: Whatever signals an operation receives, and however often, the first
    one decides: the promise settles with the timeout if the timer comes
    first and with what the client reported if the completion comes first,
    a timeout is counted once in the first case and never in the second,
    and after the first signal the timer is off. *)
Theorem first_signal_decides (now : Z) (name desc : string) m l :
  let st := signals l (_makeNodeResolverWithTimeout now name desc, m) in
  deferred st.1
  = match l with
    | [] => None
    | TimerFires :: _ =>
        Some (inr (TimeoutError ("Cache request timeout. " +:+ desc)))
    | Completion _ err data :: _ =>
        Some (if truthy_reason err then inr (ClientError err) else inl data)
    end
  /\ getTimeoutCount st.2 name
     = getTimeoutCount m name
       + match l with TimerFires :: _ => 1 | _ => 0 end
  /\ match l with [] => timeout st.1 = true | _ :: _ => timeout st.1 = false end.
Proof.
  cbn zeta. destruct l as [| s l]; [cbn; repeat split; lia |].
  change (signals (s :: l) ?st) with (signals l (signal s st)).
  set (st1 := signal s (_makeNodeResolverWithTimeout now name desc, m)).
  assert (timeout st1.1 = false) as Hoff by (by destruct s).
  destruct (signals_timer_off l st1 name Hoff) as [H1 H2].
  split; [| split; [| done]].
  - destruct s as [| t err data]; apply signals_settled; [done |].
    subst st1. cbn. by destruct (truthy_reason err).
  - rewrite H2. subst st1. destruct s as [| t err data]; cbn [signal fst snd].
    + cbn. rewrite getTimeoutCount_timeoutCounter_inc. lia.
    + cbn. rewrite getTimeoutCount_stats_update. lia.
Qed.

End FirstSignal.

(* ===================================================================== *)
(** * The connection: who has the handlers                                *)
(* ===================================================================== *)

Section Handlers.

Implicit Types (c : Connection) (ev : Life) (l : list Life).

Lemma handlers_in_place_live c ev :
  handlers_in_place c -> handlers_in_place (live c ev).
Proof.
  intros (Hcur & Hatt & Hnum).
  destruct ev as [| | | client | client e | client]; cbn [live].
  - unfold connect. destruct (_isAvailable c); [done |].
    split; [| split]; cbn [_client attached created quits].
    + intros client [= <-]. apply elem_of_union. right. by apply elem_of_singleton.
    + intros client [Hin | ->%elem_of_singleton]%elem_of_union; [| by left].
      right. destruct (_client c) as [old |] eqn:E.
      * apply elem_of_difference in Hin as [Hin Hne].
        destruct (Hatt client Hin) as [[= ->] | H]; [| done].
        exfalso. apply Hne. by apply elem_of_singleton.
      * destruct (Hatt client Hin) as [H | H]; done.
    + intros client [Hin | ->%elem_of_singleton]%elem_of_union; [| lia].
      assert (client ∈ attached c) as Hin'
        by (destruct (_client c); [by apply elem_of_difference in Hin as [Hin _] | done]).
      specialize (Hnum client Hin'). lia.
  - unfold disconnect. destruct (_client c) as [cur |] eqn:E; [| done].
    split; [| split]; cbn [fst _client attached created quits]; [done | | done].
    intros client Hin. destruct (Hatt client Hin) as [H | H]; [by left |].
    right. apply elem_of_app. by left.
  - unfold destroy, disconnect. destruct (_client c) as [cur |] eqn:E; [| done].
    split; [| split]; cbn [fst _client attached created quits]; [done | | done].
    intros client Hin. right. apply elem_of_app.
    destruct (Hatt client Hin) as [[= ->] | H]; [right | by left].
    by apply list_elem_of_singleton.
  - by case_decide.
  - by case_decide.
  - by case_decide.
Qed.

Lemma one_client_live c ev :
  is_destroy ev = false -> one_client c -> one_client (live c ev).
Proof.
  intros Hev Hone. pose proof Hone as [Hatt Hav].
  destruct ev as [| | | client | client e | client]; try discriminate; cbn [live].
  - unfold connect. destruct (_isAvailable c) eqn:A; [exact Hone |].
    split; cbn [_client attached _isAvailable]; [| done].
    intros client [Hin | ->%elem_of_singleton]%elem_of_union; [| done].
    exfalso. destruct (_client c) as [old |] eqn:E.
    + apply elem_of_difference in Hin as [Hin Hne].
      specialize (Hatt client Hin). injection Hatt as ->.
      apply Hne. by apply elem_of_singleton.
    + by specialize (Hatt client Hin).
  - unfold disconnect. destruct (_client c) as [cur |] eqn:E.
    + split; cbn [fst _client attached _isAvailable]; [| done].
      intros client Hin. by apply Hatt.
    + split; cbn [fst _client attached _isAvailable]; [| done].
      intros client Hin. by apply Hatt.
  - case_decide as Hin; [| exact Hone]. split; cbn; [exact Hatt |].
    intros _. by rewrite (Hatt client Hin).
  - case_decide; [| exact Hone]. split; cbn; [exact Hatt | exact Hav].
  - case_decide; [| exact Hone]. split; cbn; [exact Hatt | done].
Qed.

Lemma handlers_in_place_lived l c :
  handlers_in_place c -> handlers_in_place (lived l c).
Proof.
  revert c. induction l as [| ev l IH]; intros c H; [done |].
  apply (IH (live c ev)), handlers_in_place_live, H.
Qed.

Lemma one_client_lived l c :
  forallb (fun ev => negb (is_destroy ev)) l = true ->
  one_client c -> one_client (lived l c).
Proof.
  revert c. induction l as [| ev l IH]; intros c Hl H; [done |].
  cbn in Hl. apply andb_true_iff in Hl as [Hev Hl].
  apply (IH (live c ev)); [done |]. apply one_client_live; [| done].
  by apply negb_true_iff.
Qed.

(** X9: In every state that a connection reaches, the current client has the
    three handlers and every other client that still has them was told to
    quit: [connect()] takes them off the client it replaces.  As long as
    [destroy()] was not called, no client but the current one has them, and
    a connection that is available has a client. *)
Theorem handlers_stay_with_the_current_client l :
  let c := lived l new_Connection in
  handlers_in_place c
  /\ (forallb (fun ev => negb (is_destroy ev)) l = true -> one_client c).
Proof.
  cbn zeta. split.
  - apply handlers_in_place_lived.
    split; [done |]. split; intros client H; by apply elem_of_empty in H.
  - intros Hl. apply one_client_lived; [done |]. split; [| done].
    intros client H. by apply elem_of_empty in H.
Qed.

End Handlers.

(** X9, an instance: A connection that connects, is up, loses its client and connects
    again: the second client is the only one with handlers. *)
Lemma handlers_stay_with_the_current_client_witness :
  one_client
    (lived [Life_connect; Client_connect 0; Client_end 0; Life_connect]
           new_Connection).
Proof.
  exact (proj2 (handlers_stay_with_the_current_client
                  [Life_connect; Client_connect 0; Client_end 0; Life_connect])
           eq_refl).
Defined.

(* ===================================================================== *)
(** * MultiplexingCache: fetches, calls and callers in flight             *)
(* ===================================================================== *)

Section Fetches.

Implicit Types (this : MultiplexingCache) (key k : string) (keys : list string).

Lemma mget_calls_app (a b : list Effect) :
  mget_calls (a ++ b) = (mget_calls a ++ mget_calls b)%list.
Proof. unfold mget_calls. by rewrite omap_app. Qed.

Lemma mget_calls_deleted keys : mget_calls (Deleted <$> keys) = [].
Proof. induction keys as [| k l IH]; [done | exact IH]. Qed.

Lemma mget_calls_registered (p : nat) keys :
  mget_calls ((fun k => Registered k p) <$> keys) = [].
Proof. induction keys as [| k l IH]; [done | exact IH]. Qed.

Lemma fetches_are_the_calls_exec (op : Op) this :
  fetches_are_the_calls this -> fetches_are_the_calls (exec this op).
Proof.
  intros [Heq Hne].
  assert (forall l call,
             (forall ks, call <> Delegate_mget ks) ->
             fetches_are_the_calls ((_invalidateKeys l >> delegate call) this).2)
    as Hwrite.
  { intros l call Hcall. destruct (write_eq l call this) as (Hj & _ & Hp).
    assert (mget_calls (journal ((_invalidateKeys l >> delegate call) this).2)
            = mget_calls (journal this)) as E.
    { rewrite Hj, !mget_calls_app, mget_calls_deleted.
      destruct call; try (by rewrite app_nil_r). by destruct (Hcall keys). }
    split; rewrite E; [by rewrite Hp | done]. }
  destruct op as [key | keys | items maxAgeMs nx | key increment
                  | key val maxAgeMs nx | key | p outcome]; cbn [exec].
  - rewrite get_eq. destruct (_pendingGets this !! key); [by split |].
    cbn [snd]. split; cbn [journal promises].
    + rewrite mget_calls_app, fmap_app, Heq. done.
    + rewrite mget_calls_app. apply Forall_app. split; [done |].
      by apply Forall_singleton.
  - pose proof (mget_eq keys this) as E. cbn zeta in E. rewrite E. clear E.
    destruct (filter _ keys) as [| k0 l] eqn:F; [by split |].
    cbn [snd]. split; cbn [journal promises].
    + rewrite mget_calls_app, fmap_app, Heq.
      change (mget_calls (Called (Delegate_mget (k0 :: l)) :: ?rest))
        with ((k0 :: l) :: mget_calls rest).
      by rewrite mget_calls_registered.
    + rewrite mget_calls_app. apply Forall_app. split; [done |].
      change (mget_calls (Called (Delegate_mget (k0 :: l)) :: ?rest))
        with ((k0 :: l) :: mget_calls rest).
      rewrite mget_calls_registered. by apply Forall_singleton.
  - by apply Hwrite.
  - by apply (Hwrite [inl key]).
  - by apply (Hwrite [inl key]).
  - by apply (Hwrite [inl key]).
  - destruct (promises this !! p) as [[keys [| settled]] |] eqn:E.
    + rewrite (_mget_settled_eq p keys outcome this E). cbn [snd].
      split; cbn [journal promises].
      * rewrite mget_calls_app, mget_calls_deleted, app_nil_r, Heq.
        apply list_eq. intros i. rewrite !list_lookup_fmap, list_lookup_alter.
        case_decide as Hi; [| done]. subst i. by rewrite E.
      * by rewrite mget_calls_app, mget_calls_deleted, app_nil_r.
    + unfold _mget_settled. rewrite E. by split.
    + unfold _mget_settled. rewrite E. by split.
Qed.

(** X10: In every state that a cache reaches, the promises it has made are those
    of its calls of [mget] on the delegate, one for one, in order and with
    the same keys, and it has never called [mget] on the delegate without
    keys. *)
Theorem one_delegate_call_for_each_fetch (ops : list Op) :
  let this := run ops new_MultiplexingCache in
  mget_calls (journal this) = fetch_keys <$> promises this
  /\ Forall (fun keys => keys <> []) (mget_calls (journal this)).
Proof.
  cbn zeta.
  assert (forall this, fetches_are_the_calls this ->
                       fetches_are_the_calls (run ops this)) as H.
  { induction ops as [| op ops IH]; intros this Hthis; [done |].
    apply (IH (exec this op)), fetches_are_the_calls_exec, Hthis. }
  apply H. by split.
Qed.

(** A pending promise stays as it is until it is settled. *)
Lemma pending_until_settled (p : nat) keys (ops : list Op) this :
  forallb (leaves_pending p) ops = true ->
  promises this !! p = Some {| fetch_keys := keys; fetch_state := Pending |} ->
  promises (run ops this) !! p
  = Some {| fetch_keys := keys; fetch_state := Pending |}.
Proof.
  revert this. induction ops as [| op ops IH]; intros this Hops Hp; [done |].
  cbn in Hops. apply andb_true_iff in Hops as [Hop Hops].
  apply (IH (exec this op)); [done |].
  assert (forall l call,
             promises ((_invalidateKeys l >> delegate call) this).2 !! p
             = Some {| fetch_keys := keys; fetch_state := Pending |}) as Hwrite.
  { intros l call. destruct (write_eq l call this) as (_ & _ & ->). done. }
  destruct op as [key | ks | items maxAgeMs nx | key increment
                  | key val maxAgeMs nx | key | q outcome]; cbn [exec].
  - rewrite get_eq. destruct (_pendingGets this !! key); [done |].
    cbn [snd promises]. by apply lookup_app_l_Some.
  - pose proof (mget_eq ks this) as E. cbn zeta in E. rewrite E. clear E.
    destruct (filter _ ks) as [| k0 l]; [done |].
    cbn [snd promises]. by apply lookup_app_l_Some.
  - apply Hwrite.
  - apply Hwrite.
  - apply Hwrite.
  - apply Hwrite.
  - cbn in Hop. apply negb_true_iff, Nat.eqb_neq in Hop.
    destruct (promises this !! q) as [[ks [| settled]] |] eqn:E.
    + rewrite (_mget_settled_eq q ks outcome this E). cbn [snd promises].
      by rewrite list_lookup_alter_ne.
    + unfold _mget_settled. by rewrite E.
    + unfold _mget_settled. by rewrite E.
Qed.

(** X11: A caller in flight is out of reach of everything but the answer: after
    a [get] for a key that names no member of [Object.prototype] and has no
    entry, whatever reads of ordinary keys, writes and other settlements
    follow (the writes may delete the entry of the key), the promise of the
    caller is pending until the delegate answers its call, and then it
    settles with that answer.  Rejections carry a truthy reason. *)
Theorem caller_in_flight_gets_the_answer_to_its_call this key (ops : list Op)
    (outcome : Promise (option (list JsVal))) :
  ordinary_key key = true ->
  (forall e, outcome = Rejected e -> truthy_reason e = true) ->
  forallb ordinary_op ops = true ->
  forallb truthy_settlement ops = true ->
  _pendingGets this !! key = None ->
  forallb (leaves_pending (get key this).1) ops = true ->
  let p := (get key this).1 in
  let later := run ops (get key this).2 in
  get_result later p key = Pending
  /\ get_result (_mget_settled p outcome later).2 p key
     = Settled (then_value outcome
                  (fun results =>
                     match results with
                     | Some (r :: _) => r
                     | _ => JUndefined
                     end)).
Proof.
  intros _ _ _ _ Hfree. rewrite (get_eq key this), Hfree. cbn [fst snd].
  intros Hops. cbn zeta.
  set (sent := {| _pendingGets := _; promises := _; journal := _ |}).
  assert (promises (run ops sent) !! length (promises this)
          = Some {| fetch_keys := [key]; fetch_state := Pending |}) as Hp.
  { apply pending_until_settled; [done |]. subst sent. cbn [promises].
    by apply list_lookup_middle. }
  split.
  - unfold get_result. by rewrite Hp.
  - rewrite (_mget_settled_eq _ [key] outcome _ Hp).
    unfold get_result. cbn [snd promises].
    rewrite list_lookup_alter, decide_True, Hp by done.
    cbn [fmap option_fmap option_map fetch_state]. f_equal.
    destruct outcome as [[[| r rs] |] | e]; cbn; try done.
    + unfold _extractValue, property. by rewrite lookup_insert_eq.
    + unfold _extractValue, property. by rewrite lookup_insert_eq.
Qed.

End Fetches.

(** X11, an instance: [get("a")], then [del("a")] and a second [get("a")], then the answer to
    the first call: the first caller gets it. *)
Lemma caller_in_flight_gets_the_answer_to_its_call_witness :
  get_result
    (_mget_settled 0 (Fulfilled (Some [JStr "old"]))
       (run [Op_del "a"; Op_get "a"] (get "a" new_MultiplexingCache).2)).2
    0 "a"
  = Settled (Fulfilled (JStr "old")).
Proof.
  exact (proj2 (caller_in_flight_gets_the_answer_to_its_call
                  new_MultiplexingCache "a" [Op_del "a"; Op_get "a"]
                  (Fulfilled (Some [JStr "old"])) eq_refl
                  (fun e (H : Fulfilled (Some [JStr "old"]) = Rejected e) =>
                     match H in _ = q
                           return match q with
                                  | Rejected e' => truthy_reason e' = true
                                  | Fulfilled _ => True
                                  end
                     with eq_refl => I end)
                  eq_refl eq_refl eq_refl eq_refl)).
Defined.

(* ===================================================================== *)
(** * RedisConnection: how a [get] is measured                            *)
(* ===================================================================== *)

(** X12: [get(key)] is an [mget] of one key for the client and for the
    instruments: it makes the call [mget([key])], and when its timer fires
    the timeout is counted under ["mget"] and not under ["get"], with an
    error that describes an [mget]. *)
Theorem get_is_measured_as_mget (key : string) (now : Z) (m : Instruments) :
  Adapter.get key
  = With_client (client_mget [key]) "mget"
      ("Redis [mget] key.0: " +:+ key +:+ " key.length: 1")
  /\ (forall r : Resolver (list JsVal),
         resolver_of (list JsVal) now (Adapter.get key) = Some r ->
         let fired := on_timeout r m in
         deferred fired.1
         = Some (inr (TimeoutError
                        ("Cache request timeout. Redis [mget] key.0: " +:+ key
                         +:+ " key.length: 1")))
         /\ getTimeoutCount fired.2 "mget" = S (getTimeoutCount m "mget")
         /\ getTimeoutCount fired.2 "get" = getTimeoutCount m "get").
Proof.
  split; [reflexivity |]. intros r [= <-]. cbn zeta. cbn [on_timeout].
  split; [reflexivity |]. split.
  - apply getTimeoutCount_timeoutCounter_inc.
  - unfold on_timeout. cbn [snd timeout _makeNodeResolverWithTimeout opName].
    unfold getTimeoutCount, timeoutCounter_inc. cbn [timeoutCounters].
    by rewrite lookup_insert_ne.
Qed.

(** X12, an instance: A [get("k")] dispatched at time 0 whose timer fires. *)
Lemma get_is_measured_as_mget_witness :
  getTimeoutCount
    (on_timeout (_makeNodeResolverWithTimeout (A := list JsVal) 0 "mget"
                   "Redis [mget] key.0: k key.length: 1")
                {| stats := ∅; timeoutCounters := ∅ |}).2 "mget"
  = 1.
Proof.
  exact (proj1 (proj2 (proj2 (get_is_measured_as_mget "k" 0
                                {| stats := ∅; timeoutCounters := ∅ |})
                         _ eq_refl))).
Defined.

(* ===================================================================== *)
(** * getServerInfo: the lines of the reply                               *)
(* ===================================================================== *)

Section InfoLines.

Implicit Types (s t text line k v pad : string) (c sep : ascii).

Lemma append_cons c s t : String c s +:+ t = String c (s +:+ t).
Proof. reflexivity. Qed.

Lemma append_nil t : EmptyString +:+ t = t.
Proof. reflexivity. Qed.

Lemma all_chars_weaken (P Q : ascii -> bool) s :
  (forall c, P c = true -> Q c = true) -> all_chars P s = true -> all_chars Q s = true.
Proof.
  intros HPQ. induction s as [| c s IH]; [done |]. cbn.
  intros [Hc Hs]%andb_true_iff. by rewrite (HPQ c Hc), IH.
Qed.

Lemma all_chars_app (P : ascii -> bool) s t :
  all_chars P (s +:+ t) = all_chars P s && all_chars P t.
Proof.
  induction s as [| c s IH]; [done |]. rewrite append_cons. cbn.
  by rewrite IH, andb_assoc.
Qed.

Lemma split_nonempty sep s : split sep s <> [].
Proof.
  induction s as [| c s IH]; [done |]. cbn.
  destruct (Ascii.eqb c sep); [done |]. by destruct (split sep s).
Qed.

Lemma split_without sep s :
  all_chars (fun c => negb (Ascii.eqb c sep)) s = true -> split sep s = [s].
Proof.
  induction s as [| c s IH]; [done |]. cbn.
  intros [Hc Hs]%andb_true_iff. apply negb_true_iff in Hc. by rewrite Hc, IH.
Qed.

(** The part after the last separator is the last element. *)
Lemma split_last sep text line :
  all_chars (fun c => negb (Ascii.eqb c sep)) line = true ->
  split sep (text +:+ String sep line) = (split sep text ++ [line])%list.
Proof.
  intros Hline. induction text as [| c text IH].
  - rewrite append_nil. cbn. by rewrite Ascii.eqb_refl, split_without.
  - rewrite append_cons. cbn [split]. rewrite IH.
    destruct (Ascii.eqb c sep); [done |].
    pose proof (split_nonempty sep text). by destruct (split sep text).
Qed.

Lemma indexOf_absent c s :
  all_chars (fun d => negb (Ascii.eqb d c)) s = true -> indexOf c s = (-1)%Z.
Proof.
  induction s as [| d s IH]; [done |]. cbn.
  intros [Hd Hs]%andb_true_iff. apply negb_true_iff in Hd. by rewrite Hd, IH.
Qed.

Lemma indexOf_found c s t :
  all_chars (fun d => negb (Ascii.eqb d c)) s = true ->
  indexOf c (s +:+ String c t) = Z.of_nat (String.length s).
Proof.
  induction s as [| d s IH].
  - intros _. rewrite append_nil. cbn. by rewrite Ascii.eqb_refl.
  - rewrite append_cons. cbn [indexOf all_chars String.length].
    intros [Hd Hs]%andb_true_iff. apply negb_true_iff in Hd.
    rewrite Hd, IH by done.
    destruct (Z.ltb_spec (Z.of_nat (String.length s)) 0); lia.
Qed.

Lemma trim_right_padding pad :
  all_chars is_white_space pad = true -> trim_right pad = EmptyString.
Proof.
  induction pad as [| c pad IH]; [done |]. cbn.
  intros [Hc Hp]%andb_true_iff. by rewrite IH, Hc.
Qed.

Lemma trim_right_app_padding s pad :
  all_chars is_white_space pad = true -> trim_right (s +:+ pad) = trim_right s.
Proof.
  intros Hpad. induction s as [| c s IH].
  - rewrite append_nil. by apply trim_right_padding.
  - rewrite append_cons. cbn [trim_right]. by rewrite IH.
Qed.

Lemma trim_right_solid s :
  all_chars (fun c => negb (is_white_space c)) s = true -> trim_right s = s.
Proof.
  induction s as [| c s IH]; [done |]. cbn [all_chars trim_right].
  intros [Hc Hs]%andb_true_iff. apply negb_true_iff in Hc. rewrite IH by done.
  destruct s; [by rewrite Hc | done].
Qed.

Lemma trim_left_solid c s : is_white_space c = false -> trim_left (String c s) = String c s.
Proof. intros H. cbn. by rewrite H. Qed.

(** The item of a line that holds a field. *)
Lemma field_line k v pad :
  k <> EmptyString -> field_text k = true -> field_text v = true ->
  padding pad = true ->
  (0 <? indexOf ":" (k +:+ String ":" (v +:+ pad)))%Z = true
  /\ split ":" (trim (k +:+ String ":" (v +:+ pad))) = [k; v].
Proof.
  intros Hk Hfk Hfv Hpad.
  assert (forall s, field_text s = true ->
                    all_chars (fun c => negb (Ascii.eqb c ":")) s = true) as Hcolon.
  { intros s. apply all_chars_weaken. by intros c [_ H]%andb_true_iff. }
  assert (forall s, field_text s = true ->
                    all_chars (fun c => negb (is_white_space c)) s = true) as Hsolid.
  { intros s. apply all_chars_weaken. by intros c [H _]%andb_true_iff. }
  assert (all_chars is_white_space pad = true) as Hws.
  { revert Hpad. apply all_chars_weaken. by intros c [H _]%andb_true_iff. }
  split.
  - rewrite indexOf_found by auto. destruct k; [done |].
    apply Z.ltb_lt. cbn [String.length]. lia.
  - assert (k +:+ String ":" (v +:+ pad) = (k +:+ String ":" v) +:+ pad) as ->.
    { clear. induction k as [| c k IH]; [done |]. by rewrite !append_cons, IH. }
    assert (all_chars (fun c => negb (is_white_space c)) (k +:+ String ":" v) = true)
      as Hline.
    { rewrite all_chars_app. cbn [all_chars]. rewrite !Hsolid by done. done. }
    unfold trim.
    assert (trim_left ((k +:+ String ":" v) +:+ pad) = (k +:+ String ":" v) +:+ pad)
      as ->.
    { destruct k as [| c k]; [done |]. rewrite !append_cons. apply trim_left_solid.
      apply Hsolid in Hfk. cbn in Hfk. apply andb_true_iff in Hfk as [H _].
      by apply negb_true_iff. }
    rewrite trim_right_app_padding, trim_right_solid by done.
    rewrite split_last by auto. by rewrite split_without by auto.
Qed.

Lemma parse_items_field text k v pad :
  k <> EmptyString -> field_text k = true -> field_text v = true ->
  padding pad = true ->
  property (parse_items (text +:+ String "010" (k +:+ String ":" (v +:+ pad)))) k
  = JStr v.
Proof.
  intros Hk Hfk Hfv Hpad.
  destruct (field_line k v pad Hk Hfk Hfv Hpad) as [Hidx Hsplit].
  assert (all_chars (fun c => negb (Ascii.eqb c "010"))
            (k +:+ String ":" (v +:+ pad)) = true) as Hlf.
  { rewrite all_chars_app. cbn [all_chars]. rewrite all_chars_app.
    assert (forall s, field_text s = true ->
                      all_chars (fun c => negb (Ascii.eqb c "010")) s = true) as H.
    { intros s. apply all_chars_weaken. intros c [H _]%andb_true_iff.
      apply negb_true_iff in H. apply negb_true_iff.
      destruct (Ascii.eqb_spec c "010") as [-> |]; [done | done]. }
    rewrite !H by done.
    assert (all_chars (fun c => negb (Ascii.eqb c "010")) pad = true) as ->; [| done].
    revert Hpad. apply all_chars_weaken. by intros c [_ Hc]%andb_true_iff. }
  unfold parse_items. rewrite split_last by done.
  rewrite filter_app, map_app, fold_left_app.
  rewrite filter_cons, decide_True by done. cbn [filter map fold_left].
  rewrite filter_nil. cbn [map fold_left]. rewrite Hsplit.
  unfold property. cbn [array_get lookup list_lookup ToString].
  by rewrite lookup_insert_eq.
Qed.

(** X13: The reply of [INFO] is read line by line and the last line decides.
    When the text ends with a line that holds a field, a name and a value
    without white space or colon, separated by a colon and followed by no
    more than white space such as a carriage return, the field has that
    value, whatever the text before it.  A last line without a colon, a
    section header or an empty line, changes nothing. *)
Theorem parse_items_last_line_decides text :
  (forall k v pad,
      k <> EmptyString -> field_text k = true -> field_text v = true ->
      padding pad = true ->
      property (parse_items (text +:+ String "010" (k +:+ String ":" (v +:+ pad)))) k
      = JStr v)
  /\ (forall line,
         no_field line = true ->
         parse_items (text +:+ String "010" line) = parse_items text).
Proof.
  split; [apply parse_items_field |].
  intros line Hline.
  assert (all_chars (fun c => negb (Ascii.eqb c "010")) line = true) as Hlf.
  { revert Hline. apply all_chars_weaken. by intros c [H _]%andb_true_iff. }
  assert (indexOf ":" line = (-1)%Z) as Hidx.
  { apply indexOf_absent. revert Hline. apply all_chars_weaken.
    by intros c [_ H]%andb_true_iff. }
  unfold parse_items. rewrite split_last by done.
  rewrite filter_app, filter_cons, decide_False, filter_nil, app_nil_r; [done |].
  by rewrite Hidx.
Qed.

Lemma split_first sep s t :
  all_chars (fun c => negb (Ascii.eqb c sep)) s = true ->
  split sep (s +:+ String sep t) = s :: split sep t.
Proof.
  induction s as [| c s IH].
  - intros _. rewrite append_nil. cbn. by rewrite Ascii.eqb_refl.
  - rewrite append_cons. cbn [all_chars split].
    intros [Hc Hs]%andb_true_iff. apply negb_true_iff in Hc.
    by rewrite Hc, IH.
Qed.

Lemma decimal_digit_in_count_text c :
  is_decimal_digit c = true ->
  (negb (is_white_space c) && negb (Ascii.eqb c ":")
   && negb (Ascii.eqb c ",") && negb (Ascii.eqb c "="))%bool = true.
Proof.
  destruct c as [[] [] [] [] [] [] [] []]; intros H; vm_compute in H;
    try discriminate H; reflexivity.
Qed.

Lemma digit_value_decimal c :
  is_decimal_digit c = true ->
  exists d, digit_value c = Some d /\ (0 <= d <= 9)%Z.
Proof.
  unfold is_decimal_digit, digit_value. cbn zeta. intros H. rewrite H.
  eexists. split; [reflexivity |].
  apply andb_true_iff in H as [H1%Nat.leb_le H2%Nat.leb_le]. lia.
Qed.

Lemma parse_digits_decimal s :
  all_chars is_decimal_digit s = true ->
  forall a, (0 <= a)%Z ->
  exists z, parse_digits (Some a) s = Some z
            /\ (0 <= z < (a + 1) * 10 ^ Z.of_nat (String.length s))%Z.
Proof.
  induction s as [| c s IH]; intros Hs a Ha.
  - exists a. split; [done |]. cbn. lia.
  - cbn [all_chars] in Hs. apply andb_true_iff in Hs as [Hc Hs].
    destruct (digit_value_decimal c Hc) as (d & Hd & Hd9).
    cbn [parse_digits]. rewrite Hd.
    destruct (IH Hs (10 * a + d)%Z ltac:(lia)) as (z & -> & Hz).
    exists z. split; [done |].
    cbn [String.length]. rewrite Nat2Z.inj_succ, Z.pow_succ_r by lia.
    assert (0 < 10 ^ Z.of_nat (String.length s))%Z by (apply Z.pow_pos_nonneg; lia).
    nia.
Qed.

Lemma parseInt_decimal c s :
  is_decimal_digit c = true ->
  parseInt (JStr (String c s))
  = match parse_digits None (String c s) with
    | Some n => Int (1 * n)
    | None => NaN
    end.
Proof.
  destruct c as [[] [] [] [] [] [] [] []]; intros H; vm_compute in H;
    try discriminate H; reflexivity.
Qed.

Lemma parseInt_count n :
  all_chars is_decimal_digit n = true ->
  match parseInt (JStr n) with
  | Int count =>
      n <> EmptyString /\ (0 <= count < 10 ^ Z.of_nat (String.length n))%Z
  | NaN => n = EmptyString
  end.
Proof.
  destruct n as [| c n]; [done |]. intros Hn.
  cbn [all_chars] in Hn. apply andb_true_iff in Hn as [Hc Hn].
  rewrite (parseInt_decimal c n Hc).
  destruct (digit_value_decimal c Hc) as (d & Hd & Hd9).
  cbn [parse_digits]. rewrite Hd.
  destruct (parse_digits_decimal n Hn (10 * 0 + d)%Z ltac:(lia)) as (z & -> & Hz).
  split; [done |].
  cbn [String.length]. rewrite Nat2Z.inj_succ, Z.pow_succ_r by lia.
  assert (0 < 10 ^ Z.of_nat (String.length n))%Z by (apply Z.pow_pos_nonneg; lia).
  nia.
Qed.

(** X14: The number of keys is what follows [keys=] on the line of [db0]: when
    the reply ends with the line [db0:keys=N,...] (and at most white space
    after it), with [N] at most fifteen decimal digits, [getServerInfo]
    resolves with [numOfKeys] the number that [parseInt] reads from [N]:
    [NaN] when [N] is empty, and otherwise a number from 0 and below
    [10^15], which a double holds exactly. *)
Theorem getServerInfo_reads_the_key_count (new_ServerInfo : ServerInfo)
    text (n rest pad : string) :
  all_chars is_decimal_digit n = true -> (String.length n <= 15)%nat ->
  field_text rest = true -> padding pad = true ->
  exists info,
    getServerInfo new_ServerInfo FalsyReason
      (text +:+ String "010" ("db0" +:+ String ":" (("keys=" +:+ n +:+ String "," rest) +:+ pad)))
    = Fulfilled info
    /\ numOfKeys info = parseInt (JStr n)
    /\ match numOfKeys info with
       | Int count => n <> EmptyString /\ (0 <= count < 10 ^ 15)%Z
       | NaN => n = EmptyString
       end.
Proof.
  intros Hdigits Hlen Hrest Hpad.
  assert (count_text n = true) as Hn.
  { revert Hdigits. apply all_chars_weaken, decimal_digit_in_count_text. }
  assert (forall P, (forall c, (negb (is_white_space c) && negb (Ascii.eqb c ":")
                               && negb (Ascii.eqb c ",") && negb (Ascii.eqb c "="))%bool
                               = true -> P c = true) ->
                    all_chars P n = true) as Hn'.
  { intros P HP. revert Hn. by apply all_chars_weaken. }
  assert (field_text ("keys=" +:+ n +:+ String "," rest) = true) as Hv.
  { unfold field_text in *. rewrite !all_chars_app. cbn [all_chars].
    rewrite (Hn' _), Hrest; [done |].
    by intros c [[[-> ->]%andb_true_iff _]%andb_true_iff _]%andb_true_iff. }
  pose proof (parse_items_field text "db0" _ pad ltac:(discriminate) eq_refl Hv Hpad)
    as Hdb0.
  unfold getServerInfo, makeNodeResolver. cbn [truthy_reason then_ Q_resolve].
  unfold getServerInfo_then. rewrite Hdb0.
  eexists. split; [reflexivity |]. cbn [numOfKeys].
  assert (("keys=" +:+ n +:+ String "," rest) = ("keys=" +:+ n) +:+ String "," rest)
    as -> by done.
  rewrite split_first.
  - cbn [array_get lookup list_lookup ToString].
    change ("keys=" +:+ n) with ("keys" +:+ String "=" n).
    rewrite split_first by done. rewrite split_without.
    + cbn [array_get lookup list_lookup]. split; [done |].
      pose proof (parseInt_count n Hdigits) as Hcount.
      destruct (parseInt (JStr n)) as [| count]; [done |].
      destruct Hcount as [Hne Hcount]. split; [done |].
      assert (10 ^ Z.of_nat (String.length n) <= 10 ^ 15)%Z
        by (apply Z.pow_le_mono_r; lia).
      lia.
    + apply Hn'. by intros c [_ ->]%andb_true_iff.
  - rewrite all_chars_app. cbn [all_chars]. rewrite (Hn' _); [done |].
    by intros c [[_ ->]%andb_true_iff _]%andb_true_iff.
Qed.

End InfoLines.

(** X13, an instance: A reply with a section header, two lines for [used_memory] and a
    carriage return at the end of every line. *)
Lemma parse_items_last_line_decides_witness :
  property
    (parse_items (("# Memory" +:+ String "013" (String "010" "used_memory:1"))
                  +:+ String "010" ("used_memory" +:+ String ":" ("1024" +:+ String "013" ""))))
    "used_memory"
  = JStr "1024".
Proof.
  exact (proj1 (parse_items_last_line_decides
                  ("# Memory" +:+ String "013" (String "010" "used_memory:1")))
           "used_memory" "1024" (String "013" "")
           ltac:(discriminate) eq_refl eq_refl eq_refl).
Defined.

(** X14, an instance: The reply of a server with twelve keys. *)
Lemma getServerInfo_reads_the_key_count_witness :
  exists info,
    getServerInfo
      {| memoryBytes := Int 0; memoryRssBytes := Int 0; evictedKeys := Int 0;
         numOfConnections := Int 0; numOfKeys := Int 0 |}
      FalsyReason
      ("used_memory:1024"
       +:+ String "010" ("db0" +:+ String ":"
                           (("keys=" +:+ "12" +:+ String "," "expires=20")
                            +:+ String "013" "")))
    = Fulfilled info
    /\ numOfKeys info = Int 12
    /\ match numOfKeys info with
       | Int count => "12" <> EmptyString /\ (0 <= count < 10 ^ 15)%Z
       | NaN => "12" = EmptyString
       end.
Proof.
  exact (getServerInfo_reads_the_key_count _ "used_memory:1024" "12" "expires=20"
           (String "013" "") eq_refl ltac:(cbn; lia) eq_refl eq_refl).
Defined.
